(** * TreeGen: a random forest generator on shared grid layers

    A shallow embedding of [gen.py].

    - The module level constants become a configuration record: the two
      counts [NUM_TREES] and [NUM_LAYERS] are natural numbers, the bounds
      of the branching factor are integers.
    - Python integers are [Z]; list lengths, the loop counter [ct] of
      [generate_layers] and the depth [layer] of [generate], which start
      at 1 and 0 and are only incremented, are [nat].
    - The coordinates of the program are integers and floats obtained by
      adding [0.5]; they are the type [num].
    - A call returns or raises: the type [result].
    - The global generator of the module [random] is a tape of naturals
      that is threaded through every call that draws from it.
    - The list [layers] is one object that every tree draws from; it is
      threaded through the construction of the trees.
    - Integers, lists and the call stack are unbounded. *)

From Stdlib Require Import ZArith Lia String Ascii.
From stdpp Require Import base numbers list strings pretty sorting.
From Equations Require Import Equations.

Local Open Scope Z_scope.

(** ** Parameters *)

Record Config := {
  NUM_TREES : nat;
  NUM_LAYERS : nat;
  MIN_CHILD : Z;
  MAX_CHILD : Z
}.

(** The constants as they stand in the file. *)
Definition default_config : Config :=
  {| NUM_TREES := 3; NUM_LAYERS := 3; MIN_CHILD := 1; MAX_CHILD := 2 |}.

(** ** Numbers and points

    A coordinate is a Python [int], or a [float] that is a multiple of one
    half: [PyFloat h] is the float of value [h / 2].  The only float
    literal of the program is [0.5] and floats only arise by adding it to
    integers, so the values are exact in binary64 (for magnitudes below
    2^52) and addition is exact. *)

Inductive num :=
  | PyInt (n : Z)
  | PyFloat (h : Z).

(** Twice the numeric value: Python's [==] on numbers compares values, so
    [1 == 1.0]. *)
Definition twice (a : num) : Z :=
  match a with
  | PyInt n => 2 * n
  | PyFloat h => h
  end.

Definition num_add (a b : num) : num :=
  match a, b with
  | PyInt m, PyInt n => PyInt (m + n)
  | _, _ => PyFloat (twice a + twice b)
  end.

Abbreviation point := (num * num)%type.

(** The value of a point, which is what tuple equality compares. *)
Definition pval (p : point) : Z * Z := (twice p.1, twice p.2).

Definition point_eqb (p q : point) : bool := bool_decide (pval p = pval q).

(** [range(n)] as a list of integers. *)
Definition range (n : Z) : list Z := Z.of_nat <$> seq 0 (Z.to_nat n).

Definition translate_layer (layer : list point) (translation : point)
  : list point :=
  (λ x : point, (num_add x.1 translation.1, num_add x.2 translation.2))
    <$> layer.

Definition get_layer (size : nat) : list point :=
  let n := Z.of_nat size * 2 + 3 in
  let layer := k ← range n; m ← range n; [(PyInt k, PyInt m)] in
  let layer :=
    translate_layer layer
      (PyInt (- (Z.of_nat size + 1)), PyInt (- (Z.of_nat size + 1))) in
  if decide (Z.of_nat size mod 2 = 0)
  then translate_layer layer (PyFloat 1, PyFloat 1)
  else layer.

(** ** generate_layers *)

(** The inner loop: [while len(layer) < bound: ct += 1; layer = get_layer(ct)].
    It returns the final [ct]; the layer is [get_layer] of it. *)
Equations? grow_ct (bound : Z) (ct : nat) : nat
  by wf (Z.to_nat (bound - Z.of_nat (length (get_layer ct)))) lt :=
  grow_ct bound ct with decide (Z.of_nat (length (get_layer ct)) < bound) := {
    | left _ => grow_ct bound (ct + 1)
    | right _ => ct }.
Proof.
  assert (Hbind : ∀ (A B : Type) (f : A → list B) (xs : list A) (c : nat),
    (∀ x, length (f x) = c) → length (xs ≫= f) = (length xs * c)%nat).
  { intros A B f xs c Hf. induction xs as [|x xs IH]; [done|].
    by rewrite bind_cons, length_app, Hf, IH. }
  assert (Hrange : ∀ n, length (range n) = Z.to_nat n).
  { intros n. unfold range. by rewrite length_fmap, length_seq. }
  assert (Hlen : ∀ s : nat, length (get_layer s)
    = (Z.to_nat (Z.of_nat s * 2 + 3) * Z.to_nat (Z.of_nat s * 2 + 3))%nat).
  { intros s. unfold get_layer, translate_layer.
    destruct (decide _); rewrite ?length_fmap;
      rewrite (Hbind _ _ _ _ (Z.to_nat (Z.of_nat s * 2 + 3))), ?Hrange; try done;
      intros x; by rewrite (Hbind _ _ _ _ 1%nat), Hrange, ?Nat.mul_1_r. }
  rewrite !Hlen in *. nia.
Qed.

(** The outer loop: [while len(nodes) < NUM_LAYERS].  The state is the
    counter [ct], which is never reset, and the list [nodes]; the unused
    counter [i] of the source is dropped. *)
Equations? layers_loop (cfg : Config) (ct : nat) (nodes : list (list point))
  : list (list point)
  by wf (NUM_LAYERS cfg - length nodes)%nat lt :=
  layers_loop cfg ct nodes
    with decide (length nodes < NUM_LAYERS cfg)%nat := {
    | left _ =>
        let ct' :=
          grow_ct (Z.of_nat (NUM_TREES cfg)
                   * MAX_CHILD cfg ^ (Z.of_nat (length nodes) + 1)) ct in
        layers_loop cfg ct' (nodes ++ [get_layer ct'])
    | right _ => nodes }.
Proof. rewrite length_app. simpl. lia. Qed.

Definition start_nodes_of (cfg : Config) : list point :=
  (λ i, (PyInt (i `div` 3), PyInt (i `mod` 3))) <$> range (Z.of_nat (NUM_TREES cfg)).

Definition generate_layers (cfg : Config) : list point * list (list point) :=
  (start_nodes_of cfg, layers_loop cfg 1 []).

(** ** Results, the random oracle and the generation monad *)

(** A call returns, or raises one of the two exceptions the program can
    raise.  [OutOfFuel] is not a Python outcome: it marks a recursion bound
    of the model that was too small (see [generate]). *)
Inductive result (A : Type) : Type :=
  | Ok (a : A)
  | IndexError
  | ValueError
  | OutOfFuel.
Arguments Ok {A} a.
Arguments IndexError {A}.
Arguments ValueError {A}.
Arguments OutOfFuel {A}.

Definition result_bind {A B} (m : result A) (f : A → result B) : result B :=
  match m with
  | Ok a => f a
  | IndexError => IndexError
  | ValueError => ValueError
  | OutOfFuel => OutOfFuel
  end.

(** The module [random]: an infinite tape of naturals, read from the front.
    Every outcome of [randint] and of [choice] is produced by some tape, so
    a statement about all tapes is a statement about all runs. *)
Definition Rng : Type := nat → nat.

Definition rng_next (r : Rng) : nat * Rng := (r 0%nat, λ n, r (S n)).

(** [random.randint(a, b)]: a value in [a..b], [ValueError] on an empty range. *)
Definition randint (a b : Z) (r : Rng) : result (Z * Rng) :=
  if decide (b < a) then ValueError
  else Ok (a + Z.of_nat (rng_next r).1 `mod` (b - a + 1), (rng_next r).2).

(** [random.choice(l)]: an element of [l], [IndexError] on an empty list. *)
Definition choice {A} (l : list A) (r : Rng) : result (A * Rng) :=
  match l with
  | [] => IndexError
  | _ :: _ =>
      match l !! ((rng_next r).1 `mod` length l)%nat with
      | Some a => Ok (a, (rng_next r).2)
      | None => IndexError
      end
  end.

(** [l.remove(x)]: drops the first element equal to [x], [ValueError] when
    there is none. *)
Fixpoint list_remove (x : point) (l : list point) : result (list point) :=
  match l with
  | [] => ValueError
  | y :: l' =>
      if point_eqb y x then Ok l'
      else result_bind (list_remove x l') (λ k, Ok (y :: k))
  end.

(** A node [(ID, x, y, z, parent)]. *)
Record Row := mkRow {
  row_id : Z;
  row_x : num;
  row_y : Z;
  row_z : num;
  row_parent : Z
}.

(** The fields of a [Tree] object. *)
Record Tree := mkTree {
  tree : list Row;
  ct : Z;
  num_layers : nat
}.

(** What [Tree.generate] reads and writes: the tree under construction,
    the list of layers, which is one object shared by all trees, and the
    random generator. *)
Record State := mkState {
  self : Tree;
  layers : list (list point);
  rng : Rng
}.

Definition M (A : Type) : Type := State → result (A * State).

#[local] Instance M_ret : MRet M := λ A a s, Ok (a, s).
#[local] Instance M_bind : MBind M := λ A B f m s,
  result_bind (m s) (λ '(a, s'), f a s').

(** [for i in range(n): body], for a body that does not use [i]. *)
Fixpoint for_range (n : nat) (body : M ()) : M () :=
  match n with
  | O => mret ()
  | S n' => body;; for_range n' body
  end.

(** ** class Tree *)

Definition add_node (node : point) (parent : Z) (layer : nat) : M Z := λ s,
  let t := self s in
  let t' := {| tree := tree t ++ [mkRow (ct t) node.1 (- Z.of_nat layer) node.2 parent];
               ct := ct t + 1;
               num_layers := num_layers t |} in
  Ok (ct t' - 1, {| self := t'; layers := layers s; rng := rng s |}).

(** [self.num_layers] *)
Definition self_num_layers : M nat := λ s, Ok (num_layers (self s), s).

(** [random.randint(MIN_CHILD, MAX_CHILD)] *)
Definition rand_children (cfg : Config) : M Z := λ s,
  result_bind (randint (MIN_CHILD cfg) (MAX_CHILD cfg) (rng s))
    (λ '(v, r), Ok (v, {| self := self s; layers := layers s; rng := r |})).

(** [new_node = random.choice(layers[layer])] *)
Definition choose_point (layer : nat) : M point := λ s,
  match layers s !! layer with
  | None => IndexError
  | Some l =>
      result_bind (choice l (rng s))
        (λ '(p, r), Ok (p, {| self := self s; layers := layers s; rng := r |}))
  end.

(** [layers[layer].remove(new_node)]: the inner list is updated in place. *)
Definition remove_point (layer : nat) (new_node : point) : M () := λ s,
  match layers s !! layer with
  | None => IndexError
  | Some l =>
      result_bind (list_remove new_node l)
        (λ l', Ok ((), {| self := self s;
                          layers := <[layer := l']> (layers s);
                          rng := rng s |}))
  end.

(** The recursion of [generate] is on the depth [layer], which grows up to
    [num_layers]; it is bounded here by [fuel].  A call at depth [layer]
    needs [num_layers - layer + 1] units (lemma [generate_fuel]). *)
Fixpoint generate (cfg : Config) (fuel : nat)
    (node : point) (parent : Z) (layer : nat) : M () :=
  match fuel with
  | O => λ _, OutOfFuel
  | S fuel' =>
      parent ← add_node node parent layer;
      depth ← self_num_layers;
      if decide (depth ≤ layer)%nat then mret ()
      else
        rand ← rand_children cfg;
        for_range (Z.to_nat rand)
          (new_node ← choose_point layer;
           remove_point layer new_node;;
           generate cfg fuel' new_node parent (layer + 1))
  end.

(** [Tree(start_node, layers)].  The result is the new tree together with
    the layers and the generator as the construction leaves them. *)
Definition Tree_init (cfg : Config) (start_node : point)
    (ls : list (list point)) (r : Rng)
  : result (Tree * list (list point) * Rng) :=
  let s := {| self := {| tree := []; ct := 0; num_layers := length ls |};
              layers := ls; rng := r |} in
  result_bind (generate cfg (S (length ls)) start_node 0 0 s)
    (λ '(_, s'), Ok (self s', layers s', rng s')).

(** [str.format] of a number: [str] of an integer, [repr] of a float.  The
    floats of the program are short decimals, for which [repr] is the
    sign, the integral part and [.0] or [.5]. *)
Definition format_num (a : num) : string :=
  match a with
  | PyInt n => pretty n
  | PyFloat h =>
      (if decide (h < 0) then "-" else "")
        +:+ pretty (Z.abs h `div` 2)
        +:+ (if decide (h `mod` 2 = 0) then ".0" else ".5")
  end.

Definition newline : string := String (ascii_of_nat 10) "".

(** ["{},{},{},{},{}\n".format(row[0], row[1], row[2] - 1, row[3], row[4])] *)
Definition format_row (row : Row) : string :=
  pretty (row_id row) +:+ "," +:+ format_num (row_x row) +:+ ","
    +:+ pretty (row_y row - 1) +:+ "," +:+ format_num (row_z row) +:+ ","
    +:+ pretty (row_parent row) +:+ newline.

(** [Tree.__str__] *)
Definition Tree_str (t : Tree) : string :=
  foldl (λ s row, s +:+ format_row row) "" (tree t).

(** The new tuple that [translate] stores in place of [row]. *)
Definition shift_row (num : Z) (row : Row) : Row :=
  mkRow (row_id row + num) (row_x row) (row_y row) (row_z row)
        (row_parent row + num).

(** [Tree.translate]: the rows are overwritten one index at a time; the
    indices come from [range(len(self.tree))], so each of them is valid. *)
Definition translate (num : Z) (t : Tree) : Tree :=
  foldl (λ (t : Tree) (r : nat),
           match tree t !! r with
           | Some row =>
               {| tree := <[r := shift_row num row]> (tree t);
                  ct := ct t; num_layers := num_layers t |}
           | None => t
           end)
        t (seq 0 (length (tree t))).

Definition num_nodes (t : Tree) : Z := Z.of_nat (length (tree t)).

Definition get_random_leaf (t : Tree) (r : Rng) : result (Row * Rng) :=
  choice (filter (λ row, row_y row = - Z.of_nat (num_layers t)) (tree t)) r.

(** ** class Question *)

Record Question := mkQuestion { trees : list Tree }.

(** The loop of [Question.__init__]: every tree is built on the same
    [layers] object, so what one tree removes is gone for the next. *)
Fixpoint init_loop (cfg : Config) (start_nodes : list point)
    (acc : list Tree) (ls : list (list point)) (r : Rng)
  : result (list Tree * list (list point) * Rng) :=
  match start_nodes with
  | [] => Ok (acc, ls, r)
  | node :: rest =>
      result_bind (Tree_init cfg node ls r)
        (λ '(t, ls', r'), init_loop cfg rest (acc ++ [t]) ls' r')
  end.

Definition Question_init (cfg : Config) (start_nodes : list point)
    (ls : list (list point)) (r : Rng)
  : result (Question * list (list point) * Rng) :=
  result_bind (init_loop cfg start_nodes [] ls r)
    (λ '(ts, ls', r'), Ok (mkQuestion ts, ls', r')).

(** The first loop of [Question.__str__]: each tree is translated in place
    by the number of nodes of the trees before it. *)
Fixpoint translate_all (ct : Z) (ts : list Tree) : list Tree :=
  match ts with
  | [] => []
  | t :: rest =>
      let t' := translate ct t in
      t' :: translate_all (ct + num_nodes t') rest
  end.

Definition header : string := "ID,x,y,z,parent" +:+ newline.

(** [Question.__str__]: returns the string, and the question and the
    generator as the call leaves them. *)
Definition Question_str (q : Question) (r : Rng)
  : result (string * Question * Rng) :=
  let ts := translate_all 0 (trees q) in
  result_bind (choice ts r) (λ '(t, r1),
  result_bind (get_random_leaf t r1) (λ '(random_leaf, r2),
    let s := pretty (row_id random_leaf) +:+ newline in
    let s := s +:+ header in
    let s := foldl (λ s t, s +:+ Tree_str t) s ts in
    Ok (s, mkQuestion ts, r2))).

(** [main] up to the file write: the text that [export] writes. *)
Definition main (cfg : Config) (r : Rng) : result (string * Question * Rng) :=
  let '(s, gen_layers) := generate_layers cfg in
  result_bind (Question_init cfg s gen_layers r)
    (λ '(question, _, r'), Question_str question r').

(** * Specification vocabulary *)

(** Every layer of [nodes] is large enough for its depth. *)
Definition layers_sized (cfg : Config) (nodes : list (list point)) : Prop :=
  ∀ (d : nat) (l : list point), nodes !! d = Some l →
    Z.of_nat (NUM_TREES cfg) * MAX_CHILD cfg ^ (Z.of_nat d + 1)
    ≤ Z.of_nat (length l).

(** The depth of a node is the negated [y] field. *)
Definition depth (row : Row) : Z := - row_y row.

(** The value of the [(x, z)] pair of a node. *)
Definition row_point (row : Row) : Z * Z := (twice (row_x row), twice (row_z row)).

(** The rows of depth [d], and the points of the rows of depth [d + 1],
    which are the points taken out of layer [d]. *)
Definition at_depth (d : nat) (rows : list Row) : list Row :=
  filter (λ row, row_y row = - Z.of_nat d) rows.

Definition drawn (d : nat) (rows : list Row) : list (Z * Z) :=
  row_point <$> at_depth (S d) rows.

(** [n] consecutive blocks of rows, the first one starting at ID [i], each
    block satisfying [P] at its first ID. *)
Inductive blocks (P : Z → list Row → Prop) : Z → nat → list Row → Prop :=
  | blocks_nil i : blocks P i 0 []
  | blocks_cons i n t ts :
      P i t → blocks P (i + Z.of_nat (length t)) n ts →
      blocks P i (S n) (t ++ ts).

(** The rows that one call of [generate] appends: the row of the node, then
    the blocks of its children.  [k] is the number of levels below the
    node, [i] the ID of the node. *)
Fixpoint subtree (cfg : Config) (k layer : nat) (i parent : Z)
    (node : point) (rows : list Row) : Prop :=
  ∃ kids, rows = mkRow i node.1 (- Z.of_nat layer) node.2 parent :: kids ∧
    match k with
    | O => kids = []
    | S k' =>
        ∃ rand, MIN_CHILD cfg ≤ rand ≤ MAX_CHILD cfg ∧
          blocks (λ j t, ∃ p, subtree cfg k' (S layer) j i p t)
                 (i + 1) (Z.to_nat rand) kids
    end.

(** The layers [ls'] are the layers [ls] without the points of [rows]: for
    every layer, the values of the points it had are those of the rows one
    level deeper together with those it still has. *)
Definition conserved (ls ls' : list (list point)) (rows : list Row) : Prop :=
  length ls' = length ls
  ∧ ∀ (d : nat) (l : list point), ls !! d = Some l →
      ∃ l', ls' !! d = Some l' ∧ pval <$> l ≡ₚ drawn d rows ++ (pval <$> l').

(** A step from [s] to [s'] that appends rows [t] with [P (ct s) t] to the
    tree and takes their points out of the layers. *)
Definition appends (P : Z → list Row → Prop) (s s' : State) : Prop :=
  num_layers (self s') = num_layers (self s)
  ∧ ∃ t, tree (self s') = tree (self s) ++ t
      ∧ ct (self s') = ct (self s) + Z.of_nat (length t)
      ∧ P (ct (self s)) t
      ∧ conserved (layers s) (layers s') t.

(** IDs are consecutive from [i], in the order of the rows. *)
Definition ids_from (i : Z) (rows : list Row) : Prop :=
  ∀ (j : nat) (row : Row), rows !! j = Some row → row_id row = i + Z.of_nat j.

(** [row] has its parent among [rows], one level up. *)
Definition linked (rows : list Row) (row : Row) : Prop :=
  ∃ row', row' ∈ rows ∧ row_id row' = row_parent row
          ∧ depth row' = depth row - 1.

(** [row] has a child among [rows]. *)
Definition has_child (rows : list Row) (row : Row) : Prop :=
  ∃ c, c ∈ rows ∧ c ≠ row ∧ row_parent c = row_id row.

(** The number of nodes of a full tree with [k] levels below the root and
    [m] children at every inner node: [1 + m + ... + m^k]. *)
Fixpoint full_size (m : Z) (k : nat) : Z :=
  match k with
  | O => 1
  | S k' => 1 + m * full_size m k'
  end.

(** All rows of a forest, tree after tree. *)
Definition all_rows (ts : list Tree) : list Row := ts ≫= tree.

(** A tree as [Tree(start, layers)] leaves it, for [L] layers. *)
Definition tree_ok (cfg : Config) (L : nat) (start : point) (t : Tree) : Prop :=
  num_layers t = L
  ∧ ct t = Z.of_nat (length (tree t))
  ∧ subtree cfg L 0 0 0 start (tree t).

(** [q] is the forest that [main] builds when the generator is [r]. *)
Definition generated (cfg : Config) (r : Rng) (q : Question) : Prop :=
  ∃ ls' r',
    Question_init cfg (generate_layers cfg).1 (generate_layers cfg).2 r
    = Ok (q, ls', r').

(** The parent field of [row]: its own ID at depth 0, and otherwise the ID
    of a row of [rows] one level up. *)
Definition parent_ok (rows : list Row) (row : Row) : Prop :=
  if decide (depth row = 0) then row_parent row = row_id row
  else linked rows row.

(** The scenario with two trees, two layers and one or two children. *)
Definition small_config : Config :=
  {| NUM_TREES := 2; NUM_LAYERS := 2; MIN_CHILD := 1; MAX_CHILD := 2 |}.

(** The generator that always answers 1: [randint(1, 2)] is then 2, and
    [choice] takes the element at index 1. *)
Definition tape_ones : Rng := λ _, 1%nat.

(** The layers [ls] have room for [k] subtrees rooted at depth [layer + 1]
    with [m] children per node: [k * m ^ (d - layer)] points in every
    layer [d >= layer]. *)
Definition roomy (m : Z) (layer : nat) (k : Z) (ls : list (list point)) : Prop :=
  ∀ (d : nat) (l : list point), ls !! d = Some l → (layer ≤ d)%nat →
    k * m ^ Z.of_nat (d - layer) ≤ Z.of_nat (length l).

(** The layers [ls'] are [ls] after at most [k] such subtrees were taken
    out, and nothing was taken from the layers above [layer]. *)
Definition shrunk (m : Z) (layer : nat) (k : Z) (ls ls' : list (list point))
  : Prop :=
  length ls' = length ls
  ∧ ∀ (d : nat) (l : list point), ls !! d = Some l →
      ∃ l', ls' !! d = Some l'
        ∧ Z.of_nat (length l)
          ≤ Z.of_nat (length l')
            + (if decide (layer ≤ d)%nat then k * m ^ Z.of_nat (d - layer) else 0).

(** The lines of a text: the pieces between newline characters, the last
    one with or without a final newline. *)
Fixpoint lines (s : string) : list string :=
  match s with
  | EmptyString => []
  | String c s' =>
      if Ascii.eqb c (ascii_of_nat 10) then EmptyString :: lines s'
      else match lines s' with
           | [] => [String c EmptyString]
           | l :: ls => String c l :: ls
           end
  end.

(** The first field of a record line: what stands before the first comma. *)
Fixpoint id_field (line : string) : string :=
  match line with
  | EmptyString => EmptyString
  | String c rest =>
      if Ascii.eqb c "," then EmptyString else String c (id_field rest)
  end.

(** A character that is neither a newline nor a comma, and the strings
    made of such characters. *)
Definition plain_char (c : ascii) : bool :=
  negb (Ascii.eqb c (ascii_of_nat 10)) && negb (Ascii.eqb c ",").

Fixpoint plain (s : string) : bool :=
  match s with
  | EmptyString => true
  | String c s' => plain_char c && plain s'
  end.

(** A string without newline. *)
Fixpoint one_line (s : string) : bool :=
  match s with
  | EmptyString => true
  | String c s' => negb (Ascii.eqb c (ascii_of_nat 10)) && one_line s'
  end.

(** A record line without its final newline. *)
Definition row_line (row : Row) : string :=
  pretty (row_id row) +:+ "," +:+ format_num (row_x row) +:+ ","
    +:+ pretty (row_y row - 1) +:+ "," +:+ format_num (row_z row) +:+ ","
    +:+ pretty (row_parent row).

(** A forest of one tree with a root and one leaf. *)
Definition single_tree : Question :=
  mkQuestion
    [mkTree [mkRow 0 (PyInt 0) 0 (PyInt 0) 0;
             mkRow 1 (PyInt (-1)) (-1) (PyInt 2) 0] 2 1].

(** The forest of the run of [small_config] on [tape_ones]. *)
Definition small_forest : Question :=
  match Question_init small_config (generate_layers small_config).1
          (generate_layers small_config).2 tape_ones with
  | Ok (q, _, _) => q
  | _ => mkQuestion []
  end.

(** A point of the 3x3 grid of the start nodes. *)
Definition in_start_grid (p : point) : Prop :=
  ∃ a b : Z, p = (PyInt a, PyInt b) ∧ 0 ≤ a ≤ 2 ∧ 0 ≤ b ≤ 2.

(** The fields of a record line: the pieces between commas. *)
Fixpoint fields (line : string) : list string :=
  match line with
  | EmptyString => [EmptyString]
  | String c rest =>
      if Ascii.eqb c "," then EmptyString :: fields rest
      else match fields rest with
           | [] => [String c EmptyString]
           | f :: fs => String c f :: fs
           end
  end.

(** The tree that is only a root on [start], for [L] layers. *)
Definition root_only (L : nat) (start : point) : Tree :=
  mkTree [mkRow 0 start.1 0 start.2 0] 1 L.

(** * Properties *)

(** The run of a concrete configuration on a concrete generator. *)
Ltac forest_run := eexists _, _; vm_compute; reflexivity.

(** ** Layers *)

Lemma length_bind_const {A B} (f : A → list B) (xs : list A) (c : nat) :
  (∀ a, length (f a) = c) → length (xs ≫= f) = (length xs * c)%nat.
Proof.
  intros Hf. induction xs as [|a xs IH]; [done|].
  by rewrite bind_cons, length_app, Hf, IH.
Qed.

Lemma length_range n : length (range n) = Z.to_nat n.
Proof. unfold range. by rewrite length_fmap, length_seq. Qed.

Lemma length_translate_layer layer v :
  length (translate_layer layer v) = length layer.
Proof. unfold translate_layer. apply length_fmap. Qed.

(** [get_layer size] has [(2 * size + 3)^2] points. *)
Lemma length_get_layer (size : nat) :
  Z.of_nat (length (get_layer size)) = (2 * Z.of_nat size + 3) ^ 2.
Proof.
  unfold get_layer. cbv zeta.
  assert (length (k ← range (Z.of_nat size * 2 + 3);
                  m ← range (Z.of_nat size * 2 + 3); [(PyInt k, PyInt m)])
          = (Z.to_nat (Z.of_nat size * 2 + 3) * Z.to_nat (Z.of_nat size * 2 + 3))%nat)
    as Hsq.
  { rewrite (length_bind_const _ _ (Z.to_nat (Z.of_nat size * 2 + 3))).
    - by rewrite length_range.
    - intros k. rewrite (length_bind_const _ _ 1%nat), length_range; [lia|done]. }
  destruct (decide _); rewrite !length_translate_layer, Hsq; lia.
Qed.

(** The inner loop stops at a counter whose layer reaches the bound, and
    it never decreases the counter. *)
Lemma grow_ct_spec bound ct :
  bound ≤ Z.of_nat (length (get_layer (grow_ct bound ct)))
  ∧ (ct ≤ grow_ct bound ct)%nat.
Proof.
  funelim (grow_ct bound ct).
  - destruct H as [H1 H2]. split; [done|lia].
  - split; [lia|done].
Qed.

(** The outer loop keeps the layers it has, adds layers that are large
    enough, and stops when there are [NUM_LAYERS] of them. *)
Lemma layers_loop_spec cfg ct nodes :
  layers_sized cfg nodes →
  layers_sized cfg (layers_loop cfg ct nodes)
  ∧ length (layers_loop cfg ct nodes) = (length nodes `max` NUM_LAYERS cfg)%nat.
Proof.
  funelim (layers_loop cfg ct nodes); intros Hinv.
  - set (c := grow_ct _ _) in *.
    destruct H as [Hsz Hlen].
    { intros d lyr Hl. apply lookup_app_Some in Hl as [Hl|[Hd Hl]].
      - by apply Hinv.
      - apply list_lookup_singleton_Some in Hl as [Hd0 <-].
        replace d with (length nodes) by lia.
        apply grow_ct_spec. }
    split; [done|]. rewrite Hlen, length_app. simpl. lia.
  - split; [done|lia].
Qed.

Lemma generate_layers_spec cfg :
  length (generate_layers cfg).2 = NUM_LAYERS cfg
  ∧ layers_sized cfg (generate_layers cfg).2.
Proof.
  unfold generate_layers. simpl.
  destruct (layers_loop_spec cfg 1 []) as [Hsz Hlen].
  { intros d l Hl. by rewrite lookup_nil in Hl. }
  split; [|exact Hsz]. rewrite Hlen. simpl. lia.
Qed.

(** C2 (generate_layers): under a valid configuration the result has
    exactly [NUM_LAYERS] layers, and the layer at every index [d] holds at
    least [NUM_TREES * MAX_CHILD ^ (d + 1)] points. *)
Theorem generate_layers_sized cfg :
  (1 ≤ NUM_TREES cfg ≤ 9)%nat → (1 ≤ NUM_LAYERS cfg)%nat →
  1 ≤ MIN_CHILD cfg ≤ MAX_CHILD cfg →
  length (generate_layers cfg).2 = NUM_LAYERS cfg
  ∧ ∀ (d : nat) (l : list point),
      (generate_layers cfg).2 !! d = Some l →
      Z.of_nat (NUM_TREES cfg) * MAX_CHILD cfg ^ (Z.of_nat d + 1)
      ≤ Z.of_nat (length l).
Proof. intros _ _ _. apply generate_layers_spec. Qed.

Lemma generate_layers_sized_witness :
  length (generate_layers default_config).2 = 3%nat
  ∧ ∀ (d : nat) (l : list point),
      (generate_layers default_config).2 !! d = Some l →
      3 * 2 ^ (Z.of_nat d + 1) ≤ Z.of_nat (length l).
Proof.
  apply (generate_layers_sized default_config); simpl; lia.
Defined.

(** ** The generation monad *)

Lemma result_bind_Ok {A B} (m : result A) (f : A → result B) b :
  result_bind m f = Ok b ↔ ∃ a, m = Ok a ∧ f a = Ok b.
Proof.
  destruct m; simpl; split; try (intros (? & ? & ?)); try done; eauto.
  congruence.
Qed.

Lemma bind_Ok {A B} (m : M A) (f : A → M B) s b s2 :
  (m ≫= f) s = Ok (b, s2) ↔ ∃ a s1, m s = Ok (a, s1) ∧ f a s1 = Ok (b, s2).
Proof.
  unfold mbind, M_bind. rewrite result_bind_Ok. split.
  - intros ([a s1] & ? & ?). eauto.
  - intros (a & s1 & ? & ?). by exists (a, s1).
Qed.

Lemma randint_Ok a b r v r' :
  randint a b r = Ok (v, r') → a ≤ v ≤ b.
Proof.
  unfold randint. destruct (decide _); [done|]. intros [= <- _].
  pose proof (Z.mod_pos_bound (Z.of_nat (rng_next r).1) (b - a + 1)
                ltac:(lia)). simpl in *. lia.
Qed.

Lemma choice_Ok {A} (l : list A) r a r' :
  choice l r = Ok (a, r') → a ∈ l.
Proof.
  unfold choice. destruct l as [|a0 l]; [done|].
  destruct (_ !! _) as [a1|] eqn:Hl; [|done]. intros [= <- _].
  by eapply list_elem_of_lookup_2.
Qed.

Lemma list_remove_Ok x l l' :
  list_remove x l = Ok l' →
  pval <$> l ≡ₚ pval x :: (pval <$> l').
Proof.
  revert l'. induction l as [|y l IH]; intros l'; simpl; [done|].
  unfold point_eqb. case_bool_decide as Hy.
  - intros [= <-]. by rewrite Hy.
  - rewrite result_bind_Ok. intros (k & Hk & [= <-]).
    rewrite (IH k Hk). simpl. apply Permutation_swap.
Qed.

(** *** Conservation of points *)

Lemma at_depth_app d rows1 rows2 :
  at_depth d (rows1 ++ rows2) = at_depth d rows1 ++ at_depth d rows2.
Proof. unfold at_depth. apply filter_app. Qed.

Lemma drawn_app d rows1 rows2 :
  drawn d (rows1 ++ rows2) = drawn d rows1 ++ drawn d rows2.
Proof. unfold drawn. by rewrite at_depth_app, fmap_app. Qed.

Lemma drawn_cons d row rows :
  drawn d (row :: rows)
  = if decide (row_y row = - Z.of_nat (S d))
    then row_point row :: drawn d rows else drawn d rows.
Proof.
  unfold drawn, at_depth. rewrite filter_cons.
  by destruct (decide _).
Qed.

Lemma conserved_refl ls : conserved ls ls [].
Proof. split; [done|]. intros d l Hl. exists l. by split. Qed.

Lemma conserved_trans ls1 ls2 ls3 rows1 rows2 :
  conserved ls1 ls2 rows1 → conserved ls2 ls3 rows2 →
  conserved ls1 ls3 (rows1 ++ rows2).
Proof.
  intros [Hlen1 H1] [Hlen2 H2]. split; [congruence|].
  intros d l Hl. destruct (H1 d l Hl) as (l2 & Hl2 & Hp1).
  destruct (H2 d l2 Hl2) as (l3 & Hl3 & Hp2).
  exists l3. split; [done|].
  rewrite Hp1, Hp2, drawn_app. by rewrite (assoc_L (++)).
Qed.

(** Drawing [p] from layer [layer] for a node of depth [layer + 1]. *)
Lemma conserved_draw ls layer l l' p i parent :
  ls !! layer = Some l → list_remove p l = Ok l' →
  conserved ls (<[layer := l']> ls)
    [mkRow i p.1 (- Z.of_nat (S layer)) p.2 parent].
Proof.
  intros Hl Hrm. split; [by rewrite length_insert|].
  intros d l0 Hl0. rewrite drawn_cons. simpl.
  destruct (decide (d = layer)) as [->|Hne].
  - exists l'. rewrite list_lookup_insert_eq by (by eapply lookup_lt_Some).
    split; [done|]. rewrite decide_True by done.
    assert (l0 = l) as -> by congruence.
    by rewrite (list_remove_Ok _ _ _ Hrm).
  - exists l0. rewrite list_lookup_insert_ne by done. split; [done|].
    rewrite decide_False by lia. done.
Qed.

(** *** What one call of [generate] appends *)

Lemma add_node_spec node parent layer s a s' :
  add_node node parent layer s = Ok (a, s') →
  a = ct (self s)
  ∧ s' = mkState
           (mkTree (tree (self s)
                      ++ [mkRow (ct (self s)) node.1 (- Z.of_nat layer) node.2 parent])
                   (ct (self s) + 1) (num_layers (self s)))
           (layers s) (rng s).
Proof. unfold add_node. intros [= <- <-]. simpl. split; [lia|done]. Qed.

Lemma choose_point_spec layer s p s' :
  choose_point layer s = Ok (p, s') →
  self s' = self s ∧ layers s' = layers s
  ∧ ∃ l, layers s !! layer = Some l ∧ p ∈ l.
Proof.
  unfold choose_point. destruct (_ !! _) as [l|] eqn:Hl; [|done].
  intros ([q r] & Hch & [= <- <-])%result_bind_Ok. simpl.
  do 2 (split; [done|]). exists l. split; [done|]. by eapply choice_Ok.
Qed.

Lemma remove_point_spec layer p s s' :
  remove_point layer p s = Ok ((), s') →
  self s' = self s
  ∧ ∃ l l', layers s !! layer = Some l ∧ list_remove p l = Ok l'
      ∧ layers s' = <[layer := l']> (layers s).
Proof.
  unfold remove_point. destruct (_ !! _) as [l|] eqn:Hl; [|done].
  intros (l' & Hrm & [= <-])%result_bind_Ok. simpl.
  split; [done|]. by exists l, l'.
Qed.

Lemma for_range_appends (L : nat) P (body : M ()) n s s' :
  (∀ s s', num_layers (self s) = L → body s = Ok ((), s') → appends P s s') →
  num_layers (self s) = L →
  for_range n body s = Ok ((), s') →
  appends (λ i rows, blocks P i n rows) s s'.
Proof.
  intros Hbody. revert s. induction n as [|n IH]; intros s HL; simpl.
  - intros [= <-]. split; [done|]. exists []. rewrite app_nil_r.
    split; [done|]. split; [simpl; lia|]. split; [constructor|].
    apply conserved_refl.
  - intros ([] & s1 & Hb & Hrest)%bind_Ok.
    apply Hbody in Hb as (Hnl1 & t & Ht & Hct & HP & Hc); [|done].
    apply IH in Hrest as (Hnl2 & ts & Hts & Hct2 & HB & Hc2); [|congruence].
    split; [congruence|]. exists (t ++ ts).
    split; [by rewrite Hts, Ht, (assoc_L (++))|].
    split; [rewrite length_app; lia|].
    split; [|by eapply conserved_trans].
    constructor; [done|]. by rewrite <- Hct.
Qed.

Lemma generate_spec cfg fuel node parent layer s s' :
  generate cfg fuel node parent layer s = Ok ((), s') →
  num_layers (self s') = num_layers (self s)
  ∧ ∃ kids,
      let row := mkRow (ct (self s)) node.1 (- Z.of_nat layer) node.2 parent in
      tree (self s') = tree (self s) ++ row :: kids
      ∧ ct (self s') = ct (self s) + 1 + Z.of_nat (length kids)
      ∧ subtree cfg (num_layers (self s) - layer) layer (ct (self s)) parent
                node (row :: kids)
      ∧ conserved (layers s) (layers s') kids.
Proof.
  revert node parent layer s s'.
  induction fuel as [|fuel IH]; intros node parent layer s s'; simpl; [done|].
  intros (a & s1 & Hadd & H)%bind_Ok.
  apply add_node_spec in Hadd as [-> ->].
  apply bind_Ok in H as (nl & s2 & Hnl & H).
  unfold self_num_layers in Hnl. simpl in Hnl. injection Hnl as <- <-.
  destruct (decide _) as [Hle|Hlt].
  - injection H as <-. simpl. split; [done|]. exists [].
    split; [done|]. split; [simpl; lia|]. split; [|apply conserved_refl].
    replace (num_layers (self s) - layer)%nat with 0%nat by lia.
    by exists [].
  - apply bind_Ok in H as (rand & s3 & Hrand & Hloop).
    unfold rand_children in Hrand.
    apply result_bind_Ok in Hrand as ([v r'] & Hri & [= <- <-]).
    apply randint_Ok in Hri. simpl in *.
    eapply (for_range_appends (num_layers (self s))
              (λ j t, ∃ p, subtree cfg (num_layers (self s) - S layer)
                             (S layer) j (ct (self s)) p t)) in Hloop;
      [|clear Hloop|done].
    + destruct Hloop as (Hnl & kids & Hkids & Hct & Hblocks & Hcons).
      simpl in *. split; [done|]. exists kids.
      split; [by rewrite Hkids, <- (assoc_L (++))|]. split; [lia|].
      split; [|done].
      replace (num_layers (self s) - layer)%nat
        with (S (num_layers (self s) - S layer)) by lia.
      exists kids. split; [done|]. exists v. split; [done|].
      by replace (ct (self s) + 1 - 1 + 1) with (ct (self s) + 1) in Hblocks by lia.
    + intros sa sb HL (p & sa1 & Hch & Hbody)%bind_Ok.
      apply bind_Ok in Hbody as ([] & sa2 & Hrm & Hgen).
      apply choose_point_spec in Hch as (Hself1 & Hls1 & _).
      apply remove_point_spec in Hrm as (Hself2 & l & l' & Hl & Hrm & Hls2).
      apply IH in Hgen as (Hnl & kids & Htree & Hct & Hsub & Hcons).
      rewrite Hself2, Hself1 in *. rewrite Hls2, Hls1 in *. clear Hself1 Hself2 Hls1 Hls2.
      rewrite Nat.add_1_r in *. rewrite HL in Hsub.
      replace (ct (self s) + 1 - 1) with (ct (self s)) in * by lia.
      split; [done|]. eexists. split; [done|].
      split; [simpl; lia|]. split; [by exists p|].
      eapply (conserved_trans _ _ _ [_]); [|done].
      by eapply conserved_draw.
Qed.

(** *** The recursion bound *)

Lemma for_range_ext (I : State → Prop) (body body' : M ()) n s :
  (∀ s, I s → body' s = body s) →
  (∀ s s', I s → body s = Ok ((), s') → I s') →
  I s → for_range n body' s = for_range n body s.
Proof.
  intros Hext Hinv. revert s. induction n as [|n IH]; intros s HI; [done|].
  simpl. unfold mbind, M_bind. rewrite (Hext _ HI).
  destruct (body s) as [[[] s1]| | |] eqn:Hb; simpl; try done.
  apply IH. by eapply Hinv.
Qed.

Lemma for_range_fuel (I : State → Prop) (body : M ()) n s :
  (∀ s, I s → body s ≠ OutOfFuel) →
  (∀ s s', I s → body s = Ok ((), s') → I s') →
  I s → for_range n body s ≠ OutOfFuel.
Proof.
  intros Hne Hinv. revert s. induction n as [|n IH]; intros s HI; [done|].
  simpl. unfold mbind, M_bind.
  destruct (body s) as [[[] s1]| | |] eqn:Hb; simpl; try done.
  - apply IH. by eapply Hinv.
  - by destruct (Hne _ HI).
Qed.

(** One turn of the loop of [generate] keeps [num_layers]. *)
Lemma turn_num_layers cfg fuel parent layer s s' :
  (new_node ← choose_point layer;
   remove_point layer new_node;;
   generate cfg fuel new_node parent (layer + 1)) s = Ok ((), s') →
  num_layers (self s') = num_layers (self s).
Proof.
  intros (p & s1 & Hch & Hbody)%bind_Ok.
  apply bind_Ok in Hbody as ([] & s2 & Hrm & Hgen).
  apply choose_point_spec in Hch as (Hself1 & _).
  apply remove_point_spec in Hrm as (Hself2 & _).
  apply generate_spec in Hgen as (Hnl & _). congruence.
Qed.

(** The body of [generate] on a state, after the node is added. *)
Lemma generate_S cfg fuel node parent layer s :
  generate cfg (S fuel) node parent layer s
  = let s1 := mkState
        (mkTree (tree (self s)
                   ++ [mkRow (ct (self s)) node.1 (- Z.of_nat layer) node.2 parent])
                (ct (self s) + 1) (num_layers (self s)))
        (layers s) (rng s) in
    if decide (num_layers (self s) ≤ layer)%nat then Ok ((), s1)
    else
      result_bind (rand_children cfg s1) (λ '(rand, s2),
        for_range (Z.to_nat rand)
          (new_node ← choose_point layer;
           remove_point layer new_node;;
           generate cfg fuel new_node (ct (self s) + 1 - 1) (layer + 1)) s2).
Proof.
  simpl. unfold mbind at 1, M_bind at 1. unfold add_node at 1. simpl.
  unfold mbind at 1, M_bind at 1. unfold self_num_layers at 1. simpl.
  by destruct (decide _).
Qed.

Lemma rand_children_num_layers cfg s v s' :
  rand_children cfg s = Ok (v, s') →
  num_layers (self s') = num_layers (self s).
Proof.
  unfold rand_children. by intros ([v' r'] & _ & [= _ <-])%result_bind_Ok.
Qed.

Lemma list_remove_fuel p l : list_remove p l ≠ OutOfFuel.
Proof.
  induction l as [|y l IH]; simpl; [done|].
  destruct (point_eqb y p); [done|].
  by destruct (list_remove p l).
Qed.

(** [num_layers - layer + 1] units of fuel are enough: with more, the
    outcome of [generate], value or exception, is the same. *)
Lemma generate_fuel cfg fuel fuel' node parent layer s :
  (num_layers (self s) - layer < fuel)%nat → (fuel ≤ fuel')%nat →
  generate cfg fuel' node parent layer s = generate cfg fuel node parent layer s.
Proof.
  revert fuel' node parent layer s.
  induction fuel as [|fuel IH]; intros fuel' node parent layer s Hfuel Hle;
    [lia|].
  destruct fuel' as [|fuel']; [lia|]. rewrite !generate_S. cbv zeta.
  destruct (decide _) as [|Hlt]; [done|].
  destruct (rand_children cfg _) as [[v s1]| | |] eqn:Hrand; simpl; try done.
  apply rand_children_num_layers in Hrand. simpl in Hrand.
  apply (for_range_ext (λ st, num_layers (self st) = num_layers (self s)));
    [| |done].
  - intros st Hst. unfold mbind at 1 3, M_bind at 1 3.
    destruct (choose_point layer st) as [[p st1]| | |] eqn:Hch; simpl; try done.
    apply choose_point_spec in Hch as (Hself1 & _).
    unfold mbind, M_bind.
    destruct (remove_point layer p st1) as [[[] st2]| | |] eqn:Hrm; simpl;
      try done.
    apply remove_point_spec in Hrm as (Hself2 & _).
    apply IH; [|lia]. rewrite Hself2, Hself1, Hst. lia.
  - intros st st' Hst Hturn. apply turn_num_layers in Hturn. congruence.
Qed.

(** With that much fuel the bound of the model is never hit. *)
Lemma generate_fuel_enough cfg fuel node parent layer s :
  (num_layers (self s) - layer < fuel)%nat →
  generate cfg fuel node parent layer s ≠ OutOfFuel.
Proof.
  revert node parent layer s.
  induction fuel as [|fuel IH]; intros node parent layer s Hfuel; [lia|].
  rewrite generate_S. cbv zeta.
  destruct (decide _) as [|Hlt]; [done|].
  destruct (rand_children cfg _) as [[v s1]| | |] eqn:Hrand; simpl; try done.
  - apply rand_children_num_layers in Hrand. simpl in Hrand.
    apply (for_range_fuel (λ st, num_layers (self st) = num_layers (self s)));
      [| |done].
    + intros st Hst. unfold mbind at 1, M_bind at 1.
      destruct (choose_point layer st) as [[p st1]| | |] eqn:Hch; simpl;
        try done.
      * apply choose_point_spec in Hch as (Hself1 & _).
        unfold mbind, M_bind.
        destruct (remove_point layer p st1) as [[[] st2]| | |] eqn:Hrm; simpl;
          try done.
        -- apply remove_point_spec in Hrm as (Hself2 & _).
           apply IH. rewrite Hself2, Hself1, Hst. lia.
        -- unfold remove_point in Hrm. destruct (_ !! _) as [l|]; [|done].
           pose proof (list_remove_fuel p l).
           by destruct (list_remove p l).
      * unfold choose_point in Hch. destruct (_ !! _) as [l|]; [|done].
        unfold choice in Hch. destruct l; [done|].
        by destruct (_ !! _).
    + intros st st' Hst Hturn. apply turn_num_layers in Hturn. congruence.
  - unfold rand_children, randint in Hrand. by destruct (decide _).
Qed.

(** ** The shape of the appended rows *)

Lemma blocks_impl (P Q : Z → list Row → Prop) i n rows :
  (∀ j t, P j t → Q j t) → blocks P i n rows → blocks Q i n rows.
Proof. intros HPQ. induction 1; constructor; auto. Qed.

Lemma blocks_Forall (Q : list Row → Row → Prop) P i n rows :
  (∀ ctx ctx' row, ctx ⊆ ctx' → Q ctx row → Q ctx' row) →
  (∀ j t, P j t → Forall (Q t) t) →
  blocks P i n rows → Forall (Q rows) rows.
Proof.
  intros Hmono HP. induction 1 as [|i n t ts Ht _ IH]; [constructor|].
  apply Forall_app. split.
  - eapply Forall_impl; [by eapply HP|]. intros row. apply Hmono.
    intros x Hx. apply elem_of_app. by left.
  - eapply Forall_impl; [exact IH|]. intros row. apply Hmono.
    intros x Hx. apply elem_of_app. by right.
Qed.

Lemma blocks_ids P i n rows :
  (∀ j t, P j t → ids_from j t) → blocks P i n rows → ids_from i rows.
Proof.
  intros HP. induction 1 as [|i n t ts Ht _ IH]; intros j row Hj.
  - by rewrite lookup_nil in Hj.
  - apply lookup_app_Some in Hj as [Hj|[Hge Hj]].
    + by eapply HP.
    + rewrite (IH _ _ Hj). lia.
Qed.

Lemma blocks_length P i n rows lo hi :
  (∀ j t, P j t → lo ≤ Z.of_nat (length t) ≤ hi) → blocks P i n rows →
  Z.of_nat n * lo ≤ Z.of_nat (length rows) ≤ Z.of_nat n * hi.
Proof.
  intros HP. induction 1 as [|i n t ts Ht _ IH]; [simpl; lia|].
  rewrite length_app. specialize (HP _ _ Ht). lia.
Qed.

Lemma subtree_head cfg k layer i parent node rows :
  subtree cfg k layer i parent node rows →
  ∃ kids, rows = mkRow i node.1 (- Z.of_nat layer) node.2 parent :: kids.
Proof. destruct k; intros (kids & -> & _); eauto. Qed.

Lemma subtree_ids cfg k layer i parent node rows :
  subtree cfg k layer i parent node rows → ids_from i rows.
Proof.
  revert layer i parent node rows.
  induction k as [|k IH]; intros layer i parent node rows (kids & -> & Hk).
  - subst kids. intros [|j] row Hj; simpl in Hj; [|done].
    injection Hj as <-. simpl. lia.
  - destruct Hk as (rand & _ & Hb). intros [|j] row Hj; simpl in Hj.
    + injection Hj as <-. simpl. lia.
    + eapply blocks_ids in Hb; [rewrite (Hb _ _ Hj); lia|].
      intros j' t (p & Ht). by eapply IH.
Qed.

(** The node of a call is at depth [layer], what is below it is deeper,
    and nothing is deeper than [layer + k]. *)
Lemma subtree_depth cfg k layer i parent node rows :
  subtree cfg k layer i parent node rows →
  Forall (λ row, Z.of_nat layer ≤ depth row ≤ Z.of_nat (layer + k)) rows
  ∧ Forall (λ row, Z.of_nat layer < depth row) (tail rows).
Proof.
  revert layer i parent node rows.
  induction k as [|k IH]; intros layer i parent node rows (kids & -> & Hk).
  - subst kids. split; [|constructor].
    repeat constructor; unfold depth; simpl; lia.
  - destruct Hk as (rand & _ & Hb). simpl.
    assert (Forall (λ row, Z.of_nat (S layer) ≤ depth row
                           ≤ Z.of_nat (S layer + k)) kids) as Hkids.
    { eapply (blocks_Forall (λ _ row, Z.of_nat (S layer) ≤ depth row
                                      ≤ Z.of_nat (S layer + k))); [done| |done].
      intros j t (p & Ht). by apply IH in Ht as [Ht _]. }
    split.
    + constructor; [unfold depth; simpl; lia|].
      eapply Forall_impl; [exact Hkids|]. simpl. intros; lia.
    + eapply Forall_impl; [exact Hkids|]. simpl. intros; lia.
Qed.

Lemma linked_mono ctx ctx' row : ctx ⊆ ctx' → linked ctx row → linked ctx' row.
Proof. intros Hsub (row' & Hin & ?). exists row'. split; [by apply Hsub|done]. Qed.

(** Every row below the node of a call has its parent among the rows of
    the call, one level up. *)
Lemma subtree_linked cfg k layer i parent node rows :
  subtree cfg k layer i parent node rows → Forall (linked rows) (tail rows).
Proof.
  revert layer i parent node rows.
  induction k as [|k IH]; intros layer i parent node rows (kids & -> & Hk).
  - subst kids. constructor.
  - destruct Hk as (rand & _ & Hb). simpl.
    set (row0 := mkRow i node.1 (- Z.of_nat layer) node.2 parent).
    eapply (blocks_Forall
              (λ ctx row, (row_parent row = i ∧ depth row = Z.of_nat (S layer))
                          ∨ linked ctx row)) in Hb.
    + eapply Forall_impl; [exact Hb|]. intros row [[Hp Hd]|Hl].
      * exists row0. split; [by left|]. unfold depth in *. simpl. lia.
      * eapply linked_mono; [|done]. intros x Hx. by right.
    + intros ctx ctx' row Hsub [?|?]; [by left|right]. by eapply linked_mono.
    + intros j t (p & Ht). pose proof (IH _ _ _ _ _ Ht) as Hl.
      apply subtree_head in Ht as (kids' & ->). simpl in Hl.
      constructor.
      * left. unfold depth. simpl. split; [done|lia].
      * eapply Forall_impl; [exact Hl|]. intros; by right.
Qed.

Lemma has_child_mono ctx ctx' row :
  ctx ⊆ ctx' → has_child ctx row → has_child ctx' row.
Proof. intros Hsub (c & Hin & ?). exists c. split; [by apply Hsub|done]. Qed.

(** With at least one child per inner node, every row that is not at the
    deepest level has a child. *)
Lemma subtree_children cfg k layer i parent node rows :
  1 ≤ MIN_CHILD cfg →
  subtree cfg k layer i parent node rows →
  Forall (λ row, depth row < Z.of_nat (layer + k) → has_child rows row) rows.
Proof.
  intros Hmin. revert layer i parent node rows.
  induction k as [|k IH]; intros layer i parent node rows (kids & -> & Hk).
  - subst kids. repeat constructor. unfold depth. simpl. lia.
  - destruct Hk as (rand & Hrand & Hb).
    set (row0 := mkRow i node.1 (- Z.of_nat layer) node.2 parent).
    constructor.
    + intros _. destruct (Z.to_nat rand) as [|n] eqn:Hn; [lia|].
      inversion Hb as [|? ? t ts (p & Ht) _]; subst.
      apply subtree_head in Ht as (kids' & ->).
      eexists. split; [right; left|]. split; [|done].
      intros [= ? ? ?]. lia.
    + eapply (blocks_Forall
                (λ ctx row, depth row < Z.of_nat (layer + S k)
                            → has_child ctx row)) in Hb.
      * eapply Forall_impl; [exact Hb|]. intros row Hrow Hd.
        eapply has_child_mono; [|by apply Hrow]. intros x Hx. by right.
      * intros ctx ctx' row Hsub Hrow Hd. eapply has_child_mono; eauto.
      * intros j t (p & Ht). apply IH in Ht.
        eapply Forall_impl; [exact Ht|]. simpl. intros row Hrow Hd.
        apply Hrow. lia.
Qed.

Lemma full_size_nonneg m k : 0 ≤ m → 1 ≤ full_size m k.
Proof. intros Hm. induction k; simpl; nia. Qed.

(** The number of rows of a call lies between the sizes of the full trees
    with [MIN_CHILD] and with [MAX_CHILD] children per node. *)
Lemma subtree_length cfg k layer i parent node rows :
  0 ≤ MIN_CHILD cfg →
  subtree cfg k layer i parent node rows →
  full_size (MIN_CHILD cfg) k ≤ Z.of_nat (length rows)
  ≤ full_size (MAX_CHILD cfg) k.
Proof.
  intros Hmin. revert layer i parent node rows.
  induction k as [|k IH]; intros layer i parent node rows (kids & -> & Hk).
  - subst kids. simpl. lia.
  - destruct Hk as (rand & Hrand & Hb).
    assert (Hlo := full_size_nonneg (MIN_CHILD cfg) k Hmin).
    assert (Hhi := full_size_nonneg (MAX_CHILD cfg) k ltac:(lia)).
    eapply (blocks_length _ _ _ _ (full_size (MIN_CHILD cfg) k)
              (full_size (MAX_CHILD cfg) k)) in Hb.
    + simpl. rewrite Z2Nat.id in Hb by lia. nia.
    + intros j t (p & Ht). by eapply IH.
Qed.

(** ** Trees and forests *)

Lemma all_rows_cons t ts : all_rows (t :: ts) = tree t ++ all_rows ts.
Proof. unfold all_rows. by rewrite bind_cons. Qed.

Lemma all_rows_app ts1 ts2 : all_rows (ts1 ++ ts2) = all_rows ts1 ++ all_rows ts2.
Proof. unfold all_rows. by rewrite bind_app. Qed.

Lemma conserved_root ls ls' row kids :
  row_y row = 0 → conserved ls ls' kids → conserved ls ls' (row :: kids).
Proof.
  intros Hy [Hlen Hc]. split; [done|]. intros d l Hl.
  rewrite drawn_cons, decide_False by lia. by apply Hc.
Qed.

Lemma Tree_init_spec cfg start ls r t ls' r' :
  Tree_init cfg start ls r = Ok (t, ls', r') →
  tree_ok cfg (length ls) start t ∧ conserved ls ls' (tree t).
Proof.
  unfold Tree_init. intros ([[] s'] & Hgen & [= <- <- <-])%result_bind_Ok.
  apply generate_spec in Hgen as (Hnl & kids & Htree & Hct & Hsub & Hcons).
  simpl in *. rewrite Nat.sub_0_r in Hsub.
  unfold tree_ok. rewrite Htree. repeat split; try done.
  - simpl. lia.
  - apply Hcons.
  - intros d l Hl. rewrite drawn_cons, decide_False by (simpl; lia).
    by apply Hcons.
Qed.

Lemma init_loop_spec cfg starts acc ls r ts ls' r' :
  init_loop cfg starts acc ls r = Ok (ts, ls', r') →
  ∃ new, ts = acc ++ new
    ∧ Forall2 (tree_ok cfg (length ls)) starts new
    ∧ conserved ls ls' (all_rows new).
Proof.
  revert acc ls r. induction starts as [|start starts IH]; intros acc ls r; simpl.
  - intros [= <- <- <-]. exists []. rewrite app_nil_r.
    split; [done|]. split; [constructor|apply conserved_refl].
  - intros ([[t ls1] r1] & Ht & Hrest)%result_bind_Ok.
    apply Tree_init_spec in Ht as [Hok Hc1].
    apply IH in Hrest as (new & -> & Hnew & Hc2).
    exists (t :: new). split; [by rewrite <- (assoc_L (++))|].
    destruct Hc1 as [Hlen1 Hc1]. rewrite Hlen1 in Hnew.
    split; [by constructor|].
    rewrite all_rows_cons. by eapply conserved_trans.
Qed.

Lemma Question_init_spec cfg starts ls r q ls' r' :
  Question_init cfg starts ls r = Ok (q, ls', r') →
  Forall2 (tree_ok cfg (length ls)) starts (trees q)
  ∧ conserved ls ls' (all_rows (trees q)).
Proof.
  unfold Question_init.
  intros ([[ts ls1] r1] & Hloop & [= <- <- <-])%result_bind_Ok.
  apply init_loop_spec in Hloop as (new & -> & Hnew & Hc). done.
Qed.

Lemma generate_layers_length cfg :
  length (generate_layers cfg).2 = NUM_LAYERS cfg.
Proof. apply generate_layers_spec. Qed.

(** Every tree of a generated forest is a full-depth tree over
    [NUM_LAYERS] layers. *)
Lemma generated_trees cfg r q t :
  generated cfg r q → t ∈ trees q →
  ∃ start, tree_ok cfg (NUM_LAYERS cfg) start t.
Proof.
  intros (ls' & r' & Hq) Ht. apply Question_init_spec in Hq as [Hq _].
  rewrite generate_layers_length in Hq.
  apply list_elem_of_lookup in Ht as [k Hk].
  destruct (Forall2_lookup_r _ _ _ _ _ Hq Hk) as (start & _ & Hok).
  by exists start.
Qed.

(** ** Translation *)

(** The index loop of [translate] rewrites every row. *)
Lemma translate_tree num t :
  translate num t
  = mkTree (shift_row num <$> tree t) (ct t) (num_layers t).
Proof.
  unfold translate.
  set (F := λ (t : Tree) (r : nat), match tree t !! r with
            | Some row => {| tree := <[r := shift_row num row]> (tree t);
                             ct := ct t; num_layers := num_layers t |}
            | None => t end).
  assert (∀ k, (k ≤ length (tree t))%nat →
    foldl F t (seq 0 k)
    = mkTree ((shift_row num <$> take k (tree t)) ++ drop k (tree t))
             (ct t) (num_layers t)) as Hk.
  { induction k as [|k IH]; intros Hle.
    - simpl. rewrite drop_0. by destruct t.
    - rewrite seq_S, foldl_snoc, IH by lia. simpl. unfold F at 1. simpl.
      destruct (tree t !! k) as [row|] eqn:Hrow;
        [|apply lookup_ge_None in Hrow; lia].
      assert (length (shift_row num <$> take k (tree t)) = k) as Hlen.
      { rewrite length_fmap, length_take. lia. }
      rewrite lookup_app_r, Hlen, Nat.sub_diag, lookup_drop, Nat.add_0_r, Hrow
        by lia.
      f_equal. rewrite insert_app_r_alt, Hlen, Nat.sub_diag by lia.
      rewrite (drop_S _ _ _ Hrow). simpl.
      rewrite (take_S_r _ _ _ Hrow), fmap_app. simpl.
      by rewrite <- (assoc_L (++)). }
  rewrite Hk by done. by rewrite firstn_all, drop_all, app_nil_r.
Qed.

Lemma translate_all_elem c ts t' :
  t' ∈ translate_all c ts → ∃ t num, t ∈ ts ∧ t' = translate num t.
Proof.
  revert c. induction ts as [|t ts IH]; intros c; simpl.
  - by intros ?%elem_of_nil.
  - intros [->|Hin]%elem_of_cons.
    + exists t, c. split; [by left|done].
    + apply IH in Hin as (t0 & num & ? & ?). exists t0, num.
      split; [by right|done].
Qed.

Lemma translate_all_ids c ts :
  Forall (λ t, ids_from 0 (tree t)) ts →
  ids_from c (all_rows (translate_all c ts)).
Proof.
  intros Hts. revert c. induction Hts as [|t ts Ht _ IH]; intros c j row.
  - unfold all_rows. simpl. by rewrite lookup_nil.
  - change (translate_all c (t :: ts))
      with (translate c t :: translate_all (c + num_nodes (translate c t)) ts).
    rewrite all_rows_cons.
    intros [Hj|[Hge Hj]]%lookup_app_Some.
    + rewrite translate_tree in Hj. simpl in Hj.
      apply list_lookup_fmap_Some in Hj as (row0 & -> & Hj).
      simpl. rewrite (Ht _ _ Hj). lia.
    + rewrite (IH _ _ _ Hj). unfold num_nodes. lia.
Qed.

Lemma translate_all_length c ts :
  length (all_rows (translate_all c ts)) = length (all_rows ts).
Proof.
  revert c. induction ts as [|t ts IH]; intros c; [done|].
  change (translate_all c (t :: ts))
    with (translate c t :: translate_all (c + num_nodes (translate c t)) ts).
  rewrite !all_rows_cons, !length_app, IH, translate_tree. simpl.
  by rewrite length_fmap.
Qed.

Lemma ids_from_seq i rows :
  ids_from i rows →
  row_id <$> rows = (λ k : nat, i + Z.of_nat k) <$> seq 0 (length rows).
Proof.
  intros Hids. apply list_eq. intros j. rewrite !list_lookup_fmap.
  destruct (rows !! j) as [row|] eqn:Hj; simpl.
  - rewrite lookup_seq_lt by (by eapply lookup_lt_Some). simpl.
    f_equal. by apply Hids.
  - apply lookup_ge_None in Hj. by rewrite lookup_seq_ge.
Qed.

Lemma ids_from_NoDup i rows : ids_from i rows → NoDup (row_id <$> rows).
Proof.
  intros Hids. apply NoDup_alt. intros j1 j2 x.
  rewrite !list_lookup_fmap.
  intros (row1 & Hj1 & ->)%fmap_Some (row2 & Hj2 & Heq)%fmap_Some.
  rewrite (Hids _ _ Hj1), (Hids _ _ Hj2) in Heq. lia.
Qed.

Lemma Question_str_trees q r s q' r' :
  Question_str q r = Ok (s, q', r') → trees q' = translate_all 0 (trees q).
Proof.
  unfold Question_str.
  intros ([t r1] & _ & ([leaf r2] & _ & [= _ <- _])%result_bind_Ok)%result_bind_Ok.
  done.
Qed.

Lemma tree_ok_ids cfg L start t : tree_ok cfg L start t → ids_from 0 (tree t).
Proof. intros (_ & _ & Hsub). by eapply subtree_ids. Qed.

Lemma generated_ids cfg r q :
  generated cfg r q → Forall (λ t, ids_from 0 (tree t)) (trees q).
Proof.
  intros Hq. apply Forall_forall. intros t Ht.
  destruct (generated_trees _ _ _ _ Hq Ht) as (start & Hok).
  by eapply tree_ok_ids.
Qed.

(** C9 (Tree.translate): for every tree and every integer [num], the call
    keeps the number and order of the rows, adds [num] to the ID and to the
    parent field of every row and leaves the x, y and z fields as they
    are; so the difference between parent and ID of every row is kept, and
    a row is the parent of another one after the call exactly when it was
    before. *)
Theorem translate_frame (t : Tree) (num : Z) :
  Forall2 (λ row row',
             row_id row' = row_id row + num
             ∧ row_parent row' = row_parent row + num
             ∧ row_x row' = row_x row
             ∧ row_y row' = row_y row
             ∧ row_z row' = row_z row
             ∧ row_parent row' - row_id row' = row_parent row - row_id row)
          (tree t) (tree (translate num t))
  ∧ Forall2 (λ child child',
       Forall2 (λ row row',
                  row_parent child = row_id row
                  ↔ row_parent child' = row_id row')
               (tree t) (tree (translate num t)))
       (tree t) (tree (translate num t))
  ∧ ct (translate num t) = ct t
  ∧ num_layers (translate num t) = num_layers t.
Proof.
  rewrite translate_tree. simpl. split; [|split; [|done]].
  - apply Forall2_fmap_r, Forall_Forall2_diag, Forall_forall.
    intros row _. simpl. repeat split; lia.
  - apply Forall2_fmap_r, Forall_Forall2_diag, Forall_forall.
    intros child _.
    apply Forall2_fmap_r, Forall_Forall2_diag, Forall_forall.
    intros row _. simpl. lia.
Qed.

(** C3 (unique IDs): in a generated forest, once [Question.__str__] has
    translated the trees, the IDs of all rows of all trees are pairwise
    different. *)
Theorem translated_ids_unique cfg r q r1 s q' r2 :
  generated cfg r q →
  Question_str q r1 = Ok (s, q', r2) →
  NoDup (row_id <$> all_rows (trees q')).
Proof.
  intros Hq Hstr. rewrite (Question_str_trees _ _ _ _ _ Hstr).
  eapply ids_from_NoDup, translate_all_ids, generated_ids. done.
Qed.

Lemma translated_ids_unique_witness :
  ∃ s q' r2,
    Question_str small_forest tape_ones = Ok (s, q', r2)
    ∧ NoDup (row_id <$> all_rows (trees q')).
Proof.
  eexists _, _, _. split; [vm_compute; reflexivity|].
  eapply (translated_ids_unique small_config tape_ones small_forest tape_ones).
  - forest_run.
  - vm_compute. reflexivity.
Defined.

(** ** Parent links and depths *)

Lemma tree_ok_parents cfg L start t :
  tree_ok cfg L start t → Forall (parent_ok (tree t)) (tree t).
Proof.
  intros (_ & _ & Hsub).
  pose proof (subtree_linked _ _ _ _ _ _ _ Hsub) as Hl.
  pose proof (subtree_depth _ _ _ _ _ _ _ Hsub) as [_ Hd].
  apply subtree_head in Hsub as (kids & Hrows). rewrite Hrows in *.
  simpl in *. constructor.
  - unfold parent_ok. destruct (decide _) as [|Hne]; [done|].
    destruct Hne. unfold depth. simpl. lia.
  - apply Forall_forall. intros row Hrow.
    rewrite Forall_forall in Hl, Hd.
    unfold parent_ok. rewrite decide_False by (specialize (Hd _ Hrow); lia).
    by apply Hl.
Qed.

Lemma parent_ok_shift num rows :
  Forall (parent_ok rows) rows →
  Forall (parent_ok (shift_row num <$> rows)) (shift_row num <$> rows).
Proof.
  intros Hrows. apply Forall_fmap, Forall_forall. intros row Hrow.
  rewrite Forall_forall in Hrows. specialize (Hrows _ Hrow).
  unfold parent_ok, depth in *. simpl.
  destruct (decide _); [lia|].
  destruct Hrows as (row' & Hin & Hid & Hd).
  exists (shift_row num row'). split; [by apply list_elem_of_fmap_2|].
  unfold depth in *. simpl. lia.
Qed.

(** C4 (parent links): in a generated forest every row of depth 0 has its
    own ID as parent, and every other row has as parent the ID of a row of
    the same tree whose depth is one less; this holds for the trees as
    generated and for the trees as the translation pass of
    [Question.__str__] leaves them. *)
Theorem parent_links cfg r q :
  generated cfg r q →
  Forall (λ t, Forall (parent_ok (tree t)) (tree t)) (trees q)
  ∧ Forall (λ t, Forall (parent_ok (tree t)) (tree t))
           (translate_all 0 (trees q)).
Proof.
  intros Hq.
  assert (∀ t, t ∈ trees q → Forall (parent_ok (tree t)) (tree t)) as Hbefore.
  { intros t Ht. destruct (generated_trees _ _ _ _ Hq Ht) as (start & Hok).
    by eapply tree_ok_parents. }
  split; apply Forall_forall; [done|].
  intros t' (t & num & Ht & ->)%translate_all_elem.
  rewrite translate_tree. simpl. by apply parent_ok_shift, Hbefore.
Qed.

Lemma parent_links_witness :
  generated small_config tape_ones small_forest
  ∧ Forall (λ t, Forall (parent_ok (tree t)) (tree t)) (trees small_forest)
  ∧ Forall (λ t, Forall (parent_ok (tree t)) (tree t))
           (translate_all 0 (trees small_forest)).
Proof.
  assert (generated small_config tape_ones small_forest) as Hq by forest_run.
  split; [exact Hq|].
  exact (parent_links small_config tape_ones small_forest Hq).
Defined.

(** C6 (depth): with [MIN_CHILD >= 1], no row of a generated tree is
    deeper than [NUM_LAYERS], and every row without a child is at depth
    [NUM_LAYERS] exactly. *)
Theorem leaves_at_max_depth cfg r q :
  1 ≤ MIN_CHILD cfg →
  generated cfg r q →
  Forall (λ t,
    Forall (λ row,
      0 ≤ depth row ≤ Z.of_nat (NUM_LAYERS cfg)
      ∧ (¬ has_child (tree t) row → depth row = Z.of_nat (NUM_LAYERS cfg)))
      (tree t))
    (trees q).
Proof.
  intros Hmin Hq. apply Forall_forall. intros t Ht.
  apply Forall_forall. intros row Hrow.
  destruct (generated_trees _ _ _ _ Hq Ht) as (start & _ & _ & Hsub).
  pose proof (subtree_depth _ _ _ _ _ _ _ Hsub) as [Hd _].
  pose proof (subtree_children _ _ _ _ _ _ _ Hmin Hsub) as Hc.
  rewrite Forall_forall in Hd, Hc.
  specialize (Hd _ Hrow). specialize (Hc _ Hrow). simpl in *.
  split; [lia|]. intros Hleaf.
  destruct (decide (depth row < Z.of_nat (NUM_LAYERS cfg))) as [Hlt|]; [|lia].
  destruct Hleaf. by apply Hc.
Qed.

Lemma leaves_at_max_depth_witness :
  1 ≤ MIN_CHILD small_config
  ∧ generated small_config tape_ones small_forest
  ∧ Forall (λ t,
      Forall (λ row,
        0 ≤ depth row ≤ 2 ∧ (¬ has_child (tree t) row → depth row = 2))
        (tree t))
      (trees small_forest).
Proof.
  assert (generated small_config tape_ones small_forest) as Hq by forest_run.
  split; [simpl; lia|]. split; [exact Hq|].
  apply (leaves_at_max_depth small_config tape_ones small_forest);
    [simpl; lia|exact Hq].
Defined.

(** ** Node counts *)

(** C8, as stated, fails: with two trees, two layers and one or two
    children per node, the run in which every node gets two children
    builds trees of seven nodes, which is more than six. *)
Lemma nodes_2_to_6_counterexample :
  ∃ q t, generated small_config tape_ones q ∧ t ∈ trees q
         ∧ num_nodes t = 7 ∧ ¬ (2 ≤ num_nodes t ≤ 6).
Proof.
  eexists _, _. split; [forest_run|].
  split; [left|]. vm_compute. split; [done|]. intros [_ H]. by apply H.
Qed.

(** C8, amended: with two trees, two layers and one or two children per
    node, every run builds trees of three to seven nodes: the root, one or
    two nodes below it, and one or two nodes below each of these. *)
Theorem nodes_3_to_7 r q :
  generated small_config r q →
  Forall (λ t, 3 ≤ num_nodes t ≤ 7) (trees q).
Proof.
  intros Hq. apply Forall_forall. intros t Ht.
  destruct (generated_trees _ _ _ _ Hq Ht) as (start & _ & _ & Hsub).
  apply subtree_length in Hsub; [|simpl; lia]. exact Hsub.
Qed.

Lemma nodes_3_to_7_witness :
  generated small_config tape_ones small_forest
  ∧ Forall (λ t, 3 ≤ num_nodes t ≤ 7) (trees small_forest).
Proof.
  assert (generated small_config tape_ones small_forest) as Hq by forest_run.
  split; [exact Hq|]. exact (nodes_3_to_7 tape_ones small_forest Hq).
Defined.

(** ** Generation never runs out of points *)

Lemma choice_nonempty {A} (l : list A) r :
  l ≠ [] → ∃ a, choice l r = Ok (a, (rng_next r).2) ∧ a ∈ l.
Proof.
  intros Hl. unfold choice. destruct l as [|a0 l0]; [done|].
  set (l := a0 :: l0) in *.
  destruct (lookup_lt_is_Some_2 l ((rng_next r).1 `mod` length l)%nat)
    as [a Ha].
  { apply Nat.mod_upper_bound. done. }
  exists a. rewrite Ha. split; [done|]. by eapply list_elem_of_lookup_2.
Qed.

Lemma list_remove_elem x l :
  x ∈ l → ∃ l', list_remove x l = Ok l' ∧ length l = S (length l').
Proof.
  induction l as [|y l IH]; [by intros ?%elem_of_nil|]. simpl.
  intros Hx. unfold point_eqb. case_bool_decide as Hy.
  - by exists l.
  - apply elem_of_cons in Hx as [->|Hx]; [done|].
    destruct (IH Hx) as (l' & -> & Hlen). simpl.
    exists (y :: l'). split; [done|]. simpl. lia.
Qed.

(** A draw from an empty layer raises [IndexError]. *)
Lemma choose_point_empty layer s :
  layers s !! layer = Some [] → choose_point layer s = IndexError.
Proof. unfold choose_point. by intros ->. Qed.

Lemma for_range_ok (I : nat → State → Prop) (body : M ()) n s :
  (∀ k s, I (S k) s → ∃ s', body s = Ok ((), s') ∧ I k s') →
  I n s → ∃ s', for_range n body s = Ok ((), s') ∧ I 0%nat s'.
Proof.
  intros Hbody. revert s. induction n as [|n IH]; intros s HI; simpl.
  - by exists s.
  - destruct (Hbody _ _ HI) as (s1 & Hb & HI1).
    destruct (IH _ HI1) as (s2 & Hrest & HI2).
    exists s2. split; [|done].
    unfold mbind, M_bind. by rewrite Hb.
Qed.

Lemma pow_sub_succ (m : Z) (layer d : nat) :
  (layer < d)%nat →
  m ^ Z.of_nat (d - layer) = m * m ^ Z.of_nat (d - S layer).
Proof.
  intros Hlt. replace (d - layer)%nat with (S (d - S layer)) by lia.
  rewrite Nat2Z.inj_succ. apply Z.pow_succ_r. lia.
Qed.

Lemma shrunk_refl m layer ls : shrunk m layer 0 ls ls.
Proof.
  split; [done|]. intros d l Hl. exists l. split; [done|].
  destruct (decide _); lia.
Qed.

Lemma shrunk_trans m layer a b ls1 ls2 ls3 :
  shrunk m layer a ls1 ls2 → shrunk m layer b ls2 ls3 →
  shrunk m layer (a + b) ls1 ls3.
Proof.
  intros [Hlen1 H1] [Hlen2 H2]. split; [congruence|]. intros d l Hl.
  destruct (H1 _ _ Hl) as (l2 & Hl2 & Hle1).
  destruct (H2 _ _ Hl2) as (l3 & Hl3 & Hle2).
  exists l3. split; [done|]. destruct (decide _); lia.
Qed.

Lemma shrunk_mono m layer a b ls ls' :
  0 ≤ m → a ≤ b → shrunk m layer a ls ls' → shrunk m layer b ls ls'.
Proof.
  intros Hm Hab [Hlen H]. split; [done|]. intros d l Hl.
  destruct (H _ _ Hl) as (l' & Hl' & Hle). exists l'. split; [done|].
  destruct (decide _); [|done].
  pose proof (Z.pow_nonneg m (Z.of_nat (d - layer)) Hm). nia.
Qed.

(** One turn of the loop of [generate]: a point leaves layer [layer], and
    the subtree of the new node takes its share of the deeper layers. *)
Lemma shrunk_draw m layer ls l l' ls3 :
  0 ≤ m → ls !! layer = Some l → length l = S (length l') →
  shrunk m (S layer) m (<[layer := l']> ls) ls3 →
  shrunk m layer 1 ls ls3.
Proof.
  intros Hm Hl Hlen [Hlen3 H]. rewrite length_insert in Hlen3.
  split; [done|]. intros d l0 Hl0.
  destruct (decide (d = layer)) as [->|Hne].
  - destruct (H layer l') as (l3 & Hl3 & Hle).
    { apply list_lookup_insert_eq. by eapply lookup_lt_Some. }
    exists l3. split; [done|].
    rewrite decide_False in Hle by lia. rewrite decide_True by lia.
    rewrite Nat.sub_diag. simpl. assert (l0 = l) as -> by congruence. lia.
  - destruct (H d l0) as (l3 & Hl3 & Hle).
    { by rewrite list_lookup_insert_ne. }
    exists l3. split; [done|].
    destruct (decide (layer ≤ d)%nat).
    + rewrite decide_True in Hle by lia.
      rewrite (pow_sub_succ m layer d) by lia. lia.
    + rewrite decide_False in Hle by lia. lia.
Qed.

Lemma roomy_child m layer k ls l' :
  0 ≤ m → 1 ≤ k → roomy m layer k ls →
  roomy m (S layer) m (<[layer := l']> ls).
Proof.
  intros Hm Hk Hroom d l Hl Hd.
  rewrite list_lookup_insert_ne in Hl by lia.
  specialize (Hroom d l Hl ltac:(lia)).
  rewrite (pow_sub_succ m layer d) in Hroom by lia.
  pose proof (Z.pow_nonneg m (Z.of_nat (d - S layer)) Hm). nia.
Qed.

Lemma roomy_shrunk m layer k a ls ls' :
  roomy m layer (k + a) ls → shrunk m layer a ls ls' → roomy m layer k ls'.
Proof.
  intros Hroom [Hlen H] d l' Hl' Hd.
  destruct (lookup_lt_is_Some_2 ls d) as [l Hl].
  { rewrite <- Hlen. by eapply lookup_lt_Some. }
  destruct (H _ _ Hl) as (l2 & Hl2 & Hle).
  assert (l2 = l') as -> by congruence.
  specialize (Hroom d l Hl Hd). rewrite decide_True in Hle by done.
  rewrite Z.mul_add_distr_r in Hroom. lia.
Qed.

Lemma generate_ok cfg fuel node parent layer s :
  0 ≤ MAX_CHILD cfg → MIN_CHILD cfg ≤ MAX_CHILD cfg →
  num_layers (self s) = length (layers s) →
  (num_layers (self s) - layer < fuel)%nat →
  roomy (MAX_CHILD cfg) layer (MAX_CHILD cfg) (layers s) →
  ∃ s', generate cfg fuel node parent layer s = Ok ((), s')
    ∧ num_layers (self s') = num_layers (self s)
    ∧ shrunk (MAX_CHILD cfg) layer (MAX_CHILD cfg) (layers s) (layers s').
Proof.
  intros Hmax Hminmax. set (m := MAX_CHILD cfg) in *.
  revert node parent layer s.
  induction fuel as [|fuel IH]; intros node parent layer s HL Hfuel Hroom;
    [lia|].
  simpl. unfold mbind at 1, M_bind at 1. unfold add_node at 1. simpl.
  unfold mbind at 1, M_bind at 1. unfold self_num_layers at 1. simpl.
  destruct (decide _) as [Hle|Hlt].
  - eexists. split; [done|]. split; [done|]. simpl.
    eapply shrunk_mono; [done|exact Hmax|apply shrunk_refl].
  - unfold mbind at 1, M_bind at 1. unfold rand_children at 1, randint. simpl.
    rewrite decide_False by lia. simpl.
    set (v := MIN_CHILD cfg + _).
    assert (MIN_CHILD cfg ≤ v ≤ m) as Hv.
    { pose proof (Z.mod_pos_bound (Z.of_nat (rng s 0%nat))
                    (m - MIN_CHILD cfg + 1) ltac:(lia)). unfold v, m in *. lia. }
    set (n := Z.to_nat v).
    set (pid := ct (self s) + 1 - 1).
    set (L := num_layers (self s)) in *.
    match goal with |- ∃ s', for_range _ ?b ?s0 = _ ∧ _ =>
      destruct (for_range_ok
        (λ k st, (k ≤ n)%nat ∧ num_layers (self st) = L
                 ∧ length (layers st) = L
                 ∧ roomy m layer (Z.of_nat k) (layers st)
                 ∧ shrunk m layer (Z.of_nat (n - k)) (layers s) (layers st))
        b n s0) as (s' & Hloop & Hfin)
    end.
    + intros k st (Hk & HLst & Hlen & Hroomk & Hshr).
      destruct (lookup_lt_is_Some_2 (layers st) layer) as [l Hl]; [lia|].
      assert (l ≠ []) as Hne.
      { specialize (Hroomk layer l Hl ltac:(lia)).
        rewrite Nat.sub_diag in Hroomk. simpl in Hroomk.
        intros ->. simpl in Hroomk. lia. }
      destruct (choice_nonempty l (rng st) Hne) as (p & Hch & Hp).
      destruct (list_remove_elem p l Hp) as (l' & Hrm & Hll').
      unfold mbind at 1, M_bind at 1. unfold choose_point at 1.
      rewrite Hl, Hch. simpl.
      unfold mbind at 1, M_bind at 1. unfold remove_point at 1. simpl.
      rewrite Hl, Hrm. simpl.
      match goal with |- ∃ s', generate _ _ _ _ _ ?s2 = _ ∧ _ =>
        destruct (IH p pid (layer + 1)%nat s2) as (s' & Hgen & Hnl & Hshr')
      end.
      * simpl. by rewrite length_insert, HLst.
      * simpl. lia.
      * simpl. rewrite Nat.add_1_r.
        eapply (roomy_child _ _ (Z.of_nat (S k))); [done|lia|done].
      * simpl in *. rewrite Nat.add_1_r in Hshr'.
        pose proof (shrunk_draw _ _ _ _ _ _ Hmax Hl Hll' Hshr') as Hone.
        exists s'. split; [done|]. split; [lia|]. split; [congruence|].
        split; [destruct Hone as [-> _]; done|]. split.
        -- eapply roomy_shrunk; [|done].
           by replace (Z.of_nat k + 1) with (Z.of_nat (S k)) by lia.
        -- replace (Z.of_nat (n - k)) with (Z.of_nat (n - S k) + 1) by lia.
           by eapply shrunk_trans.
    + simpl. split; [done|]. split; [done|]. split; [by rewrite <- HL|]. split.
      * intros d l Hl Hd. specialize (Hroom d l Hl Hd).
        pose proof (Z.pow_nonneg m (Z.of_nat (d - layer)) Hmax).
        unfold n. nia.
      * rewrite Nat.sub_diag. apply shrunk_refl.
    + destruct Hfin as (_ & HLs' & _ & _ & Hshr).
      exists s'. split; [done|]. split; [done|].
      simpl in Hshr. rewrite Nat.sub_0_r in Hshr.
      eapply shrunk_mono; [done| |done]. unfold n. lia.
Qed.

Lemma Tree_init_ok cfg start ls r :
  0 ≤ MAX_CHILD cfg → MIN_CHILD cfg ≤ MAX_CHILD cfg →
  roomy (MAX_CHILD cfg) 0 (MAX_CHILD cfg) ls →
  ∃ t ls' r', Tree_init cfg start ls r = Ok (t, ls', r')
    ∧ shrunk (MAX_CHILD cfg) 0 (MAX_CHILD cfg) ls ls'.
Proof.
  intros Hmax Hminmax Hroom. unfold Tree_init.
  edestruct (generate_ok cfg (S (length ls)) start 0 0%nat) as (s' & -> & _ & Hshr);
    [done|done| | |exact Hroom|]; [done|simpl; lia|].
  simpl. by eexists _, _, _.
Qed.

Lemma init_loop_ok cfg starts acc ls r :
  0 ≤ MAX_CHILD cfg → MIN_CHILD cfg ≤ MAX_CHILD cfg →
  roomy (MAX_CHILD cfg) 0 (Z.of_nat (length starts) * MAX_CHILD cfg) ls →
  ∃ ts ls' r', init_loop cfg starts acc ls r = Ok (ts, ls', r').
Proof.
  intros Hmax Hminmax. revert acc ls r.
  induction starts as [|start starts IH]; intros acc ls r Hroom; simpl.
  - by eexists _, _, _.
  - destruct (Tree_init_ok cfg start ls r) as (t & ls1 & r1 & -> & Hshr);
      [done|done| |].
    + intros d l Hl Hd. specialize (Hroom d l Hl Hd).
      pose proof (Z.pow_nonneg (MAX_CHILD cfg) (Z.of_nat (d - 0)) Hmax).
      simpl length in Hroom. nia.
    + simpl. apply IH. eapply roomy_shrunk; [|exact Hshr].
      replace (Z.of_nat (length starts) * MAX_CHILD cfg + MAX_CHILD cfg)
        with (Z.of_nat (length (start :: starts)) * MAX_CHILD cfg)
        by (simpl length; lia).
      done.
Qed.

(** C1 (no exhaustion): under a valid configuration, and whatever the
    random generator answers, the construction of all trees on the layers
    of [generate_layers] returns a forest.  A draw from an empty layer
    would end the run with [IndexError] ([choose_point_empty]), so every
    draw of the run is made from a layer that still holds a point. *)
Theorem generation_never_exhausts cfg r :
  (1 ≤ NUM_TREES cfg ≤ 9)%nat → (1 ≤ NUM_LAYERS cfg)%nat →
  1 ≤ MIN_CHILD cfg ≤ MAX_CHILD cfg →
  ∃ q, generated cfg r q.
Proof.
  intros _ _ Hchild. unfold generated, Question_init.
  destruct (generate_layers_spec cfg) as [Hlen Hsz].
  destruct (init_loop_ok cfg (generate_layers cfg).1 [] (generate_layers cfg).2 r)
    as (ts & ls' & r' & ->); [lia|lia| |by eexists _, _, _].
  intros d l Hl _. specialize (Hsz d l Hl).
  unfold generate_layers, start_nodes_of. simpl.
  rewrite length_fmap, length_range, Nat2Z.id, Nat.sub_0_r.
  replace (Z.of_nat d + 1) with (Z.succ (Z.of_nat d)) in Hsz by lia.
  rewrite Z.pow_succ_r in Hsz by lia. lia.
Qed.

Lemma generation_never_exhausts_witness :
  ∃ q, generated default_config tape_ones q.
Proof.
  apply (generation_never_exhausts default_config tape_ones); simpl; lia.
Defined.

(** ** Distinct points *)

Lemma twice_num_add a b : twice (num_add a b) = twice a + twice b.
Proof. destruct a, b; simpl; lia. Qed.

Lemma NoDup_range n : NoDup (range n).
Proof.
  unfold range. apply NoDup_fmap_2_strong; [|apply NoDup_seq].
  intros; lia.
Qed.

Lemma elem_of_range n i : i ∈ range n → 0 ≤ i.
Proof. unfold range. intros (j & -> & _)%list_elem_of_fmap. lia. Qed.

Lemma NoDup_pval_translate_layer layer v :
  NoDup (pval <$> layer) → NoDup (pval <$> translate_layer layer v).
Proof.
  intros Hnd. unfold translate_layer. rewrite <- list_fmap_compose.
  rewrite (list_fmap_ext _ ((λ q : Z * Z, (q.1 + twice v.1, q.2 + twice v.2)) ∘ pval) layer).
  - rewrite list_fmap_compose. apply NoDup_fmap_2_strong; [|done].
    intros [a1 a2] [b1 b2] _ _ [= ? ?]. f_equal; lia.
  - intros i p _. unfold pval. simpl. by rewrite !twice_num_add.
Qed.

(** The points of a layer have pairwise different values. *)
Lemma NoDup_pval_get_layer size : NoDup (pval <$> get_layer size).
Proof.
  unfold get_layer. cbv zeta.
  set (n := Z.of_nat size * 2 + 3).
  assert (NoDup (pval <$> (k ← range n; m ← range n; [(PyInt k, PyInt m)])))
    as Hgrid.
  { apply NoDup_fmap_2_strong.
    - intros p q (k & (m & ->%list_elem_of_singleton & _)%list_elem_of_bind & _)%list_elem_of_bind
                 (k' & (m' & ->%list_elem_of_singleton & _)%list_elem_of_bind & _)%list_elem_of_bind.
      unfold pval. simpl. intros [= ? ?]. repeat f_equal; lia.
    - apply NoDup_bind; [| |apply NoDup_range].
      + intros k k' p _ _
          (m & ->%list_elem_of_singleton & _)%list_elem_of_bind
          (m' & [= ? ?]%list_elem_of_singleton & _)%list_elem_of_bind.
        done.
      + intros k _. apply NoDup_bind; [| |apply NoDup_range].
        * intros m m' p _ _ ->%list_elem_of_singleton
                 [= ?]%list_elem_of_singleton. done.
        * intros m _. apply NoDup_singleton. }
  destruct (decide _); by repeat apply NoDup_pval_translate_layer.
Qed.

Lemma layers_loop_Forall (P : list point → Prop) cfg ct nodes :
  (∀ size, P (get_layer size)) → Forall P nodes →
  Forall P (layers_loop cfg ct nodes).
Proof.
  intros HP. funelim (layers_loop cfg ct nodes); intros Hnodes; [|done].
  apply H; [done|]. apply Forall_app. split; [done|]. by repeat constructor.
Qed.

Lemma generate_layers_NoDup cfg d l :
  (generate_layers cfg).2 !! d = Some l → NoDup (pval <$> l).
Proof.
  intros Hl. unfold generate_layers in Hl. simpl in Hl.
  pose proof (layers_loop_Forall (λ l, NoDup (pval <$> l)) cfg 1 []
                NoDup_pval_get_layer ltac:(constructor)) as Hall.
  rewrite Forall_lookup in Hall. by eapply Hall.
Qed.

(** The roots are placed on pairwise different points. *)
Lemma start_nodes_NoDup cfg : NoDup (pval <$> (generate_layers cfg).1).
Proof.
  unfold generate_layers, start_nodes_of. simpl. rewrite <- list_fmap_compose.
  apply NoDup_fmap_2_strong; [|apply NoDup_range].
  intros i j Hi%elem_of_range Hj%elem_of_range. unfold pval. simpl.
  intros [= Hq Hr].
  rewrite (Z.div_mod i 3), (Z.div_mod j 3) by lia. lia.
Qed.

Lemma at_depth_none d rows :
  Forall (λ row, row_y row ≠ - Z.of_nat d) rows → at_depth d rows = [].
Proof.
  unfold at_depth. induction 1 as [|row rows Hrow _ IH]; [done|].
  by rewrite filter_cons, decide_False.
Qed.

(** The only row of depth 0 of a tree is its root, on the start node. *)
Lemma tree_ok_roots cfg L start t :
  tree_ok cfg L start t → row_point <$> at_depth 0 (tree t) = [pval start].
Proof.
  intros (_ & _ & Hsub).
  pose proof (subtree_depth _ _ _ _ _ _ _ Hsub) as [_ Hd].
  apply subtree_head in Hsub as (kids & Hrows). rewrite Hrows in *.
  simpl in Hd. unfold at_depth. rewrite filter_cons, decide_True by done.
  fold (at_depth 0 kids). rewrite at_depth_none; [done|].
  eapply Forall_impl; [exact Hd|]. unfold depth. simpl. intros; lia.
Qed.

Lemma forest_roots cfg L starts ts :
  Forall2 (tree_ok cfg L) starts ts →
  row_point <$> at_depth 0 (all_rows ts) = pval <$> starts.
Proof.
  induction 1 as [|start t starts ts Hok _ IH]; [done|].
  rewrite all_rows_cons, at_depth_app, fmap_app, IH.
  by rewrite (tree_ok_roots _ _ _ _ Hok).
Qed.

Lemma forest_depth cfg L starts ts :
  Forall2 (tree_ok cfg L) starts ts →
  Forall (λ row, depth row ≤ Z.of_nat L) (all_rows ts).
Proof.
  induction 1 as [|start t starts ts (_ & _ & Hsub) _ IH]; [constructor|].
  rewrite all_rows_cons. apply Forall_app. split; [|done].
  apply subtree_depth in Hsub as [Hd _].
  eapply Forall_impl; [exact Hd|]. simpl. intros; lia.
Qed.

(** C7 (distinct points): in a generated forest no two rows of the same
    depth are on the same point: at every depth the values of the
    [(x, z)] pairs of the rows, and so the pairs themselves, are pairwise
    different. *)
Theorem points_distinct_per_depth cfg r q :
  generated cfg r q →
  ∀ d : nat,
    NoDup (row_point <$> at_depth d (all_rows (trees q)))
    ∧ NoDup ((λ row, (row_x row, row_z row)) <$> at_depth d (all_rows (trees q))).
Proof.
  intros (ls' & r' & Hq) d.
  apply Question_init_spec in Hq as [Hok [Hlen Hcons]].
  assert (NoDup (row_point <$> at_depth d (all_rows (trees q)))) as Hnd.
  { destruct d as [|d].
    - rewrite (forest_roots _ _ _ _ Hok). apply start_nodes_NoDup.
    - destruct ((generate_layers cfg).2 !! d) as [l|] eqn:Hl.
      + destruct (Hcons _ _ Hl) as (l' & _ & Hperm).
        pose proof (generate_layers_NoDup _ _ _ Hl) as Hndl.
        rewrite Hperm in Hndl. by apply NoDup_app in Hndl as [? _].
      + apply lookup_ge_None in Hl. rewrite at_depth_none; [constructor|].
        eapply Forall_impl; [by eapply forest_depth|].
        unfold depth. intros row Hrow. cbv beta in Hrow. lia. }
  split; [done|].
  apply (NoDup_fmap_1 pval). rewrite <- list_fmap_compose. exact Hnd.
Qed.

Lemma points_distinct_per_depth_witness :
  generated small_config tape_ones small_forest
  ∧ ∀ d : nat,
      NoDup (row_point <$> at_depth d (all_rows (trees small_forest)))
      ∧ NoDup ((λ row, (row_x row, row_z row))
                 <$> at_depth d (all_rows (trees small_forest))).
Proof.
  assert (generated small_config tape_ones small_forest) as Hq by forest_run.
  split; [exact Hq|].
  exact (points_distinct_per_depth small_config tape_ones small_forest Hq).
Defined.

(** ** The text *)

Lemma string_app_cons (x : ascii) (a b : string) :
  String x a +:+ b = String x (a +:+ b).
Proof. done. Qed.

Lemma string_app_nil_l (b : string) : "" +:+ b = b.
Proof. done. Qed.

Lemma string_app_assoc (a b c : string) : (a +:+ b) +:+ c = a +:+ (b +:+ c).
Proof.
  induction a as [|x a IH]; [done|]. rewrite !string_app_cons. by f_equal.
Qed.

Lemma string_app_nil_r (a : string) : a +:+ "" = a.
Proof.
  induction a as [|x a IH]; [done|]. rewrite string_app_cons. by f_equal.
Qed.

Lemma plain_app a b : plain (a +:+ b) = plain a && plain b.
Proof.
  induction a as [|x a IH]; [done|]. rewrite string_app_cons. simpl.
  by rewrite IH, andb_assoc.
Qed.

Lemma one_line_app a b : one_line (a +:+ b) = one_line a && one_line b.
Proof.
  induction a as [|x a IH]; [done|]. rewrite string_app_cons. simpl.
  by rewrite IH, andb_assoc.
Qed.

Lemma plain_one_line s : plain s = true → one_line s = true.
Proof.
  induction s as [|x s IH]; simpl; [done|]. unfold plain_char.
  intros [[? ?]%andb_prop ?]%andb_prop. rewrite IH by done.
  by apply andb_true_intro.
Qed.

Lemma plain_pretty_N_go x s : plain s = true → plain (pretty_N_go x s) = true.
Proof.
  revert s. induction (N.lt_wf_0 x) as [x _ IH]; intros s Hs.
  destruct (decide (x = 0)%N) as [->|Hx]; [by rewrite pretty_N_go_0|].
  rewrite pretty_N_go_step by lia.
  apply IH; [apply N.div_lt; lia|]. simpl. rewrite Hs, andb_true_r.
  unfold pretty_N_char. by repeat case_match.
Qed.

Lemma plain_pretty_N (x : N) : plain (pretty x) = true.
Proof.
  unfold pretty, pretty_N. destruct (decide _); [done|].
  by apply plain_pretty_N_go.
Qed.

(** A printed integer has no newline and no comma. *)
Lemma plain_pretty_Z (x : Z) : plain (pretty x) = true.
Proof.
  destruct x as [|p|p]; unfold pretty, pretty_Z; [done| |].
  - apply (plain_pretty_N (N.pos p)).
  - rewrite plain_app. simpl. apply (plain_pretty_N (N.pos p)).
Qed.

Lemma plain_format_num a : plain (format_num a) = true.
Proof.
  destruct a as [n|h]; simpl; [apply plain_pretty_Z|].
  rewrite !plain_app, plain_pretty_Z.
  by destruct (decide (h < 0)), (decide (h `mod` 2 = 0)).
Qed.

Lemma one_line_row_line row : one_line (row_line row) = true.
Proof.
  unfold row_line.
  rewrite !one_line_app, !(plain_one_line _ (plain_pretty_Z _)),
    !(plain_one_line _ (plain_format_num _)). done.
Qed.

Lemma format_row_line row : format_row row = row_line row +:+ newline.
Proof. unfold format_row, row_line. by rewrite !string_app_assoc. Qed.

Lemma lines_cons l s :
  one_line l = true → lines (l +:+ newline +:+ s) = l :: lines s.
Proof.
  induction l as [|c l IH]; [done|]. rewrite string_app_cons. simpl.
  intros [Hc Hl]%andb_prop. apply negb_true_iff in Hc. rewrite Hc.
  by rewrite IH.
Qed.

Lemma id_field_app p rest :
  plain p = true → id_field (p +:+ "," +:+ rest) = p.
Proof.
  induction p as [|c p IH]; [done|]. rewrite string_app_cons. simpl.
  unfold plain_char.
  intros [[_ Hc]%andb_prop Hp]%andb_prop. apply negb_true_iff in Hc.
  rewrite Hc. by rewrite IH.
Qed.

Lemma id_field_row_line row : id_field (row_line row) = pretty (row_id row).
Proof.
  unfold row_line. apply id_field_app, plain_pretty_Z.
Qed.

Lemma foldl_app_string {A} (f : A → string) (init : string) (l : list A) :
  foldl (λ s a, s +:+ f a) init l
  = init +:+ foldr (λ a acc, f a +:+ acc) "" l.
Proof.
  revert init. induction l as [|a l IH]; intros init; cbn [foldl foldr].
  - by rewrite string_app_nil_r.
  - by rewrite IH, string_app_assoc.
Qed.

Lemma lines_rows rows :
  lines (foldr (λ row acc, format_row row +:+ acc) "" rows)
  = row_line <$> rows.
Proof.
  induction rows as [|row rows IH]; [done|]. cbn [foldr fmap list_fmap].
  rewrite format_row_line, string_app_assoc, lines_cons, IH; [done|].
  apply one_line_row_line.
Qed.

Lemma trees_text ts :
  foldr (λ t acc, Tree_str t +:+ acc) "" ts
  = foldr (λ row acc, format_row row +:+ acc) "" (all_rows ts).
Proof.
  induction ts as [|t ts IH]; [done|].
  rewrite all_rows_cons, foldr_app. cbn [foldr]. rewrite IH. unfold Tree_str.
  rewrite foldl_app_string, string_app_nil_l.
  generalize (foldr (λ row acc, format_row row +:+ acc) "" (all_rows ts)).
  intros acc. induction (tree t) as [|row rows IHr]; [done|]. cbn [foldr].
  by rewrite string_app_assoc, IHr.
Qed.

(** The text of [Question.__str__]: the marker line, the header line and
    one line per row, in the order of the rows. *)
Lemma Question_str_lines q r s q' r' :
  Question_str q r = Ok (s, q', r') →
  ∃ marker : Z,
    lines s = pretty marker :: "ID,x,y,z,parent"
                :: (row_line <$> all_rows (trees q')).
Proof.
  unfold Question_str.
  intros ([t r1] & _ & ([leaf r2] & _ & [= <- <- _])%result_bind_Ok)%result_bind_Ok.
  exists (row_id leaf). simpl.
  rewrite foldl_app_string, trees_text. unfold header.
  rewrite !string_app_assoc.
  rewrite lines_cons by apply plain_one_line, plain_pretty_Z.
  rewrite lines_cons by done. by rewrite lines_rows.
Qed.

(** C10 (record lines): the text of the first serialization of a generated
    forest of [N] nodes is the marker line, the header line and [N] record
    lines, and the ID fields of the record lines are the decimal numerals
    of 0, 1, ..., N - 1 in this order: the ID field of the [k]-th record
    line is [k]. *)
Theorem record_lines_numbered cfg r q r1 s q' r2 :
  generated cfg r q →
  Question_str q r1 = Ok (s, q', r2) →
  (∃ marker : Z, take 2 (lines s) = [pretty marker; "ID,x,y,z,parent"])
  ∧ id_field <$> drop 2 (lines s)
    = (λ k : nat, pretty (Z.of_nat k)) <$> seq 0 (length (all_rows (trees q))).
Proof.
  intros Hq Hstr.
  destruct (Question_str_lines _ _ _ _ _ Hstr) as (marker & ->).
  split; [by exists marker|]. cbn [skipn].
  pose proof (translate_all_ids 0 _ (generated_ids _ _ _ Hq)) as Hids.
  apply ids_from_seq in Hids.
  rewrite translate_all_length in Hids.
  rewrite (Question_str_trees _ _ _ _ _ Hstr), drop_0.
  rewrite <- list_fmap_compose.
  rewrite (list_fmap_ext _ (pretty ∘ row_id) (all_rows (translate_all 0 (trees q))))
    by (intros; apply id_field_row_line).
  by rewrite list_fmap_compose, Hids, <- list_fmap_compose.
Qed.

Lemma record_lines_numbered_witness :
  ∃ s q' r2,
    generated small_config tape_ones small_forest
    ∧ Question_str small_forest tape_ones = Ok (s, q', r2)
    ∧ (∃ marker : Z, take 2 (lines s) = [pretty marker; "ID,x,y,z,parent"])
    ∧ id_field <$> drop 2 (lines s)
      = (λ k : nat, pretty (Z.of_nat k))
          <$> seq 0 (length (all_rows (trees small_forest))).
Proof.
  assert (generated small_config tape_ones small_forest) as Hq by forest_run.
  eexists _, _, _. split; [exact Hq|]. split; [vm_compute; reflexivity|].
  eapply (record_lines_numbered small_config tape_ones small_forest tape_ones);
    [exact Hq|vm_compute; reflexivity].
Defined.

(** ** Serialization and the data *)

Lemma shift_row_0 row : shift_row 0 row = row.
Proof. destruct row. unfold shift_row. simpl. f_equal; lia. Qed.

Lemma translate_0 t : translate 0 t = t.
Proof.
  rewrite translate_tree. destruct t as [rows c n]. simpl. f_equal.
  induction rows as [|row rows IH]; [done|].
  rewrite fmap_cons, shift_row_0. by f_equal.
Qed.

Lemma num_nodes_translate num t : num_nodes (translate num t) = num_nodes t.
Proof. unfold num_nodes. rewrite translate_tree. simpl. by rewrite length_fmap. Qed.

Lemma length_translate_all c ts : length (translate_all c ts) = length ts.
Proof.
  revert c. induction ts as [|t ts IH]; intros c; [done|].
  simpl. by rewrite IH.
Qed.

(** Tree [k] is translated by the number of rows of the trees before it. *)
Lemma translate_all_lookup c ts k t :
  ts !! k = Some t →
  translate_all c ts !! k
  = Some (translate (c + Z.of_nat (length (all_rows (take k ts)))) t).
Proof.
  revert c k. induction ts as [|t0 ts IH]; intros c k Hk; [done|].
  change (translate_all c (t0 :: ts))
    with (translate c t0 :: translate_all (c + num_nodes (translate c t0)) ts).
  destruct k as [|k].
  - injection Hk as ->. cbn [lookup list_lookup take]. do 2 f_equal.
    unfold all_rows. simpl. lia.
  - cbn [lookup list_lookup take]. rewrite (IH _ _ Hk).
    rewrite all_rows_cons, length_app, num_nodes_translate.
    unfold num_nodes. do 2 f_equal. lia.
Qed.

(** C5, as stated, fails: on the generated forest of two trees of
    [small_forest], the first call of [Question.__str__] changes the IDs of
    the second tree, and the second call of the same run returns another
    text. *)
Lemma serialization_counterexample :
  ∃ q ls r0 s1 q1 r1 s2 q2 r2,
    Question_init small_config (generate_layers small_config).1
      (generate_layers small_config).2 tape_ones = Ok (q, ls, r0)
    ∧ Question_str q r0 = Ok (s1, q1, r1)
    ∧ Question_str q1 r1 = Ok (s2, q2, r2)
    ∧ s1 ≠ s2 ∧ q1 ≠ q.
Proof.
  eexists _, _, _, _, _, _, _, _, _.
  split; [vm_compute; reflexivity|].
  split; [vm_compute; reflexivity|].
  split; [vm_compute; reflexivity|].
  split.
  - apply String.eqb_neq. vm_compute. reflexivity.
  - intros H. apply (f_equal (λ q, row_id <$> all_rows (trees q))) in H.
    vm_compute in H. discriminate H.
Qed.

(** C5, amended: a call of [Question.__str__] keeps the number and the
    order of the trees and of their rows and the x, y and z fields, and
    adds to the ID and to the parent field of every row of tree [k] the
    number of rows of the trees before it.  So on a forest of one tree it
    leaves the data as they are, and a second call in which the random
    generator gives the same answers returns the same text. *)
Theorem serialization_effect q r s q' r' :
  Question_str q r = Ok (s, q', r') →
  length (trees q') = length (trees q)
  ∧ (∀ (k : nat) (t : Tree), trees q !! k = Some t →
       ∃ t', trees q' !! k = Some t'
         ∧ ct t' = ct t ∧ num_layers t' = num_layers t
         ∧ Forall2 (λ row row',
              row_id row' = row_id row + Z.of_nat (length (all_rows (take k (trees q))))
              ∧ row_parent row'
                = row_parent row + Z.of_nat (length (all_rows (take k (trees q))))
              ∧ row_x row' = row_x row
              ∧ row_y row' = row_y row
              ∧ row_z row' = row_z row)
            (tree t) (tree t'))
  ∧ (length (trees q) = 1%nat →
       q' = q ∧ Question_str q' r = Ok (s, q', r')).
Proof.
  intros Hstr. pose proof (Question_str_trees _ _ _ _ _ Hstr) as Hts.
  split; [|split].
  - rewrite Hts. apply length_translate_all.
  - intros k t Hk. rewrite Hts, (translate_all_lookup _ _ _ _ Hk).
    eexists. split; [done|]. rewrite translate_tree. simpl.
    split; [done|]. split; [done|].
    apply Forall2_fmap_r, Forall_Forall2_diag, Forall_forall.
    intros row _. simpl. repeat split; lia.
  - intros Hone. assert (q' = q) as ->; [|done].
    destruct q as [ts], q' as [ts']. simpl in *. subst ts'. f_equal.
    destruct ts as [|t [|? ?]]; try done. simpl. by rewrite translate_0.
Qed.

Lemma serialization_effect_witness :
  ∃ s q' r',
    Question_str single_tree tape_ones = Ok (s, q', r')
    ∧ length (trees single_tree) = 1%nat
    ∧ q' = single_tree
    ∧ Question_str q' tape_ones = Ok (s, q', r').
Proof.
  eexists _, _, _. split; [vm_compute; reflexivity|]. split; [reflexivity|].
  refine (proj2 (proj2 (serialization_effect single_tree tape_ones _ _ _ _)) _);
    [vm_compute; reflexivity|reflexivity].
Defined.

(** ** The whole run *)

(** [main] is the construction of the forest on the generated layers
    followed by one serialization. *)
Lemma main_Ok cfg r s q' r2 :
  main cfg r = Ok (s, q', r2)
  ↔ ∃ q ls r1,
      Question_init cfg (generate_layers cfg).1 (generate_layers cfg).2 r
      = Ok (q, ls, r1)
      ∧ Question_str q r1 = Ok (s, q', r2).
Proof.
  unfold main. destruct (generate_layers cfg) as [starts ls0]. simpl.
  rewrite result_bind_Ok. split.
  - intros ([[q ls] r1] & Hq & Hs). by exists q, ls, r1.
  - intros (q & ls & r1 & Hq & Hs). by exists (q, ls, r1).
Qed.

(** One tree, one layer, one child: the text has two record lines, the
    parent of the child is the root, and the marker is the child. *)
Example main_tiny :
  (λ res, match res with Ok (s, _, _) => Some (lines s) | _ => None end)
    (main {| NUM_TREES := 1; NUM_LAYERS := 1; MIN_CHILD := 1; MAX_CHILD := 1 |}
          tape_ones)
  = Some ["1"; "ID,x,y,z,parent"; "0,0,-1,0,0"; "1,-2,-2,-1,0"].
Proof. vm_compute. reflexivity. Qed.

(** Layers of even size are shifted by one half. *)
Example get_layer_2_head :
  (λ p : point, format_num p.1) <$> head (get_layer 2) = Some "-2.5".
Proof. vm_compute. reflexivity. Qed.

Example generate_layers_sizes :
  length <$> (generate_layers
                {| NUM_TREES := 9; NUM_LAYERS := 4; MIN_CHILD := 1; MAX_CHILD := 3 |}).2
  = [49; 81; 289; 729]%nat.
Proof. vm_compute. reflexivity. Qed.

(** * Further properties of the code *)

(** ** Grids *)

Lemma elem_of_range_iff n i : i ∈ range n ↔ 0 ≤ i < n.
Proof.
  unfold range. rewrite list_elem_of_fmap. split.
  - intros (j & -> & Hj%elem_of_seq). lia.
  - intros Hi. exists (Z.to_nat i). split; [lia|]. apply elem_of_seq. lia.
Qed.

Lemma elem_of_grid n p :
  p ∈ (k ← range n; m ← range n; [(PyInt k, PyInt m)])
  ↔ ∃ k m, 0 ≤ k < n ∧ 0 ≤ m < n ∧ p = (PyInt k, PyInt m).
Proof.
  rewrite list_elem_of_bind. split.
  - intros (k & (m & ->%list_elem_of_singleton & Hm%elem_of_range_iff)%list_elem_of_bind
              & Hk%elem_of_range_iff).
    by exists k, m.
  - intros (k & m & Hk & Hm & ->). exists k.
    split; [|by apply elem_of_range_iff].
    apply list_elem_of_bind. exists m.
    split; [by apply list_elem_of_singleton|by apply elem_of_range_iff].
Qed.

Lemma elem_of_translate_layer layer v p :
  p ∈ translate_layer layer v
  ↔ ∃ q, q ∈ layer ∧ p = (num_add q.1 v.1, num_add q.2 v.2).
Proof.
  unfold translate_layer. rewrite list_elem_of_fmap. split.
  - intros (q & -> & Hq). by exists q.
  - intros (q & Hq & ->). by exists q.
Qed.

(** X1 (get_layer): the layer of size [size] has [(2 * size + 3)^2]
    points. *)
Theorem get_layer_size (size : nat) :
  Z.of_nat (length (get_layer size)) = (2 * Z.of_nat size + 3) ^ 2.
Proof. apply length_get_layer. Qed.

(** X2 (get_layer): the points of the layer of size [size] are the pairs
    of the numbers [k - (size + 1)] for [k] from 0 to [2 * size + 2],
    integers when [size] is odd and the floats one half above them when
    [size] is even: the window reaches from [-(size + 1)] to [size + 1]
    in both directions, around the origin. *)
Theorem get_layer_points (size : nat) (p : point) :
  p ∈ get_layer size ↔
  ∃ k m : Z,
    0 ≤ k ≤ 2 * Z.of_nat size + 2 ∧ 0 ≤ m ≤ 2 * Z.of_nat size + 2
    ∧ p = if decide (Z.of_nat size `mod` 2 = 0)
          then (PyFloat (2 * (k - (Z.of_nat size + 1)) + 1),
                PyFloat (2 * (m - (Z.of_nat size + 1)) + 1))
          else (PyInt (k - (Z.of_nat size + 1)),
                PyInt (m - (Z.of_nat size + 1))).
Proof.
  unfold get_layer. cbv zeta. destruct (decide _) as [Heven|Hodd].
  - rewrite elem_of_translate_layer. split.
    + intros (q & (q0 & (k & m & Hk & Hm & ->)%elem_of_grid & ->)%elem_of_translate_layer & ->).
      exists k, m. simpl. split; [lia|]. split; [lia|].
      f_equal; f_equal; lia.
    + intros (k & m & Hk & Hm & ->).
      exists (PyInt (k - (Z.of_nat size + 1)), PyInt (m - (Z.of_nat size + 1))).
      split; [|simpl; f_equal; f_equal; lia].
      apply elem_of_translate_layer. exists (PyInt k, PyInt m).
      split; [|simpl; f_equal; f_equal; lia].
      apply elem_of_grid. exists k, m. split; [lia|]. split; [lia|done].
  - rewrite elem_of_translate_layer. split.
    + intros (q & (k & m & Hk & Hm & ->)%elem_of_grid & ->).
      exists k, m. simpl. split; [lia|]. split; [lia|].
      f_equal; f_equal; lia.
    + intros (k & m & Hk & Hm & ->). exists (PyInt k, PyInt m).
      split; [|simpl; f_equal; f_equal; lia].
      apply elem_of_grid. exists k, m. split; [lia|]. split; [lia|done].
Qed.

(** X3 (get_layer): no two points of a layer are equal, neither as values
    nor as pairs. *)
Theorem get_layer_distinct (size : nat) :
  NoDup (pval <$> get_layer size) ∧ NoDup (get_layer size).
Proof.
  pose proof (NoDup_pval_get_layer size) as Hnd.
  split; [done|]. by apply NoDup_fmap_1 in Hnd.
Qed.




(** X5 (generate_layers, inner loop): the loop stops at the least counter
    from [ct] on whose layer reaches the bound: the layers of all smaller
    counters from [ct] on are too small. *)
Theorem grow_ct_least (bound : Z) (ct : nat) :
  (ct ≤ grow_ct bound ct)%nat
  ∧ bound ≤ Z.of_nat (length (get_layer (grow_ct bound ct)))
  ∧ ∀ c : nat, (ct ≤ c < grow_ct bound ct)%nat →
      Z.of_nat (length (get_layer c)) < bound.
Proof.
  funelim (grow_ct bound ct).
  - destruct H as (Hle & Hbound & Hleast). split; [lia|]. split; [done|].
    intros c Hc. destruct (decide (c = ct0)) as [->|Hne]; [done|].
    apply Hleast. lia.
  - split; [done|]. split; [lia|]. intros c Hc. lia.
Qed.

(** ** Start nodes and layers *)

Lemma start_nodes_lookup cfg (k : nat) :
  (k < NUM_TREES cfg)%nat →
  (generate_layers cfg).1 !! k
  = Some (PyInt (Z.of_nat k `div` 3), PyInt (Z.of_nat k `mod` 3)).
Proof.
  intros Hk. unfold generate_layers, start_nodes_of, range. simpl.
  rewrite !list_lookup_fmap, lookup_seq_lt by lia. done.
Qed.

(** X6 (generate_layers, start nodes): there is one start node per tree,
    the start nodes are pairwise different, and they all lie in the 3x3
    grid of the points [(0, 0)] to [(2, 2)] exactly when [NUM_TREES] is at
    most 9. *)
Theorem start_nodes_grid cfg :
  length (generate_layers cfg).1 = NUM_TREES cfg
  ∧ NoDup (pval <$> (generate_layers cfg).1)
  ∧ ((NUM_TREES cfg ≤ 9)%nat ↔ Forall in_start_grid (generate_layers cfg).1).
Proof.
  split; [|split; [apply start_nodes_NoDup|]].
  - unfold generate_layers, start_nodes_of. simpl.
    by rewrite length_fmap, length_range, Nat2Z.id.
  - split.
    + intros Hle. unfold generate_layers, start_nodes_of. simpl.
      apply Forall_fmap, Forall_forall. intros i Hi%elem_of_range_iff. simpl.
      eexists _, _. split; [done|].
      pose proof (Z.mod_pos_bound i 3 ltac:(lia)).
      assert (0 ≤ i `div` 3) by (apply Z.div_pos; lia).
      assert (i `div` 3 < 3) by (apply Z.div_lt_upper_bound; lia). lia.
    + intros Hall. destruct (decide (NUM_TREES cfg ≤ 9)%nat) as [|Hgt]; [done|].
      rewrite Forall_lookup in Hall.
      specialize (Hall 9%nat _ (start_nodes_lookup cfg 9 ltac:(lia))).
      destruct Hall as (a & b & [= <- <-] & Ha & Hb).
      vm_compute in Ha. by destruct Ha as [_ []].
Qed.

Lemma get_layer_mono (c c' : nat) :
  (c ≤ c')%nat → (length (get_layer c) ≤ length (get_layer c'))%nat.
Proof.
  intros Hle. pose proof (length_get_layer c). pose proof (length_get_layer c').
  nia.
Qed.

Lemma layers_loop_sorted cfg ct nodes :
  (1 ≤ ct)%nat →
  Forall (λ l, 25 ≤ length l ≤ length (get_layer ct))%nat nodes →
  StronglySorted le (length <$> nodes) →
  Forall (λ l, 25 ≤ length l)%nat (layers_loop cfg ct nodes)
  ∧ StronglySorted le (length <$> layers_loop cfg ct nodes).
Proof.
  funelim (layers_loop cfg ct nodes); intros Hct Hnodes Hsorted.
  - set (c := grow_ct _ _) in *.
    assert (ct0 ≤ c)%nat as Hc by apply grow_ct_spec.
    pose proof (get_layer_mono _ _ Hc) as Hmono.
    assert (25 ≤ length (get_layer c))%nat as H25.
    { pose proof (length_get_layer c). nia. }
    apply H; [lia| |].
    + apply Forall_app. split; [|by repeat constructor].
      eapply Forall_impl; [exact Hnodes|]. simpl. intros; lia.
    + rewrite fmap_app. apply StronglySorted_app_2; [|done|by repeat constructor].
      intros n1 n2 (l1 & -> & Hl1)%list_elem_of_fmap ->%list_elem_of_singleton.
      rewrite Forall_forall in Hnodes. specialize (Hnodes _ Hl1). simpl. lia.
  - split; [|done]. eapply Forall_impl; [exact Hnodes|]. simpl. intros; lia.
Qed.

(** X7 (generate_layers, layers): the counter [ct] starts at 1 and is never
    reset, so every layer has at least 25 points and no layer is smaller
    than a layer before it. *)
Theorem layer_sizes_monotone cfg :
  Forall (λ l, 25 ≤ length l)%nat (generate_layers cfg).2
  ∧ StronglySorted le (length <$> (generate_layers cfg).2).
Proof.
  unfold generate_layers. simpl.
  apply layers_loop_sorted; [lia|constructor|constructor].
Qed.

(** ** Trees as generated *)

(** X8 (Tree.generate, size): with a branching factor between
    [MIN_CHILD >= 0] and [MAX_CHILD], every tree of a generated forest has
    at least as many nodes as the full tree with [MIN_CHILD] children per
    node, and at most as many as the full tree with [MAX_CHILD] children
    per node, over [NUM_LAYERS] levels. *)
Theorem tree_size_bounds cfg r q :
  0 ≤ MIN_CHILD cfg →
  generated cfg r q →
  Forall (λ t, full_size (MIN_CHILD cfg) (NUM_LAYERS cfg) ≤ num_nodes t
               ≤ full_size (MAX_CHILD cfg) (NUM_LAYERS cfg))
         (trees q).
Proof.
  intros Hmin Hq. apply Forall_forall. intros t Ht.
  destruct (generated_trees _ _ _ _ Hq Ht) as (start & _ & _ & Hsub).
  by eapply subtree_length.
Qed.

Lemma tree_size_bounds_witness :
  0 ≤ MIN_CHILD default_config
  ∧ ∃ q, generated default_config tape_ones q
      ∧ Forall (λ t, 4 ≤ num_nodes t ≤ 15) (trees q).
Proof.
  split; [simpl; lia|]. eexists. split; [forest_run|].
  apply (tree_size_bounds default_config tape_ones); [simpl; lia|forest_run].
Defined.

(** X9 (Tree.add_node, local IDs): in every tree of a generated forest,
    before any translation, the row at index [k] has ID [k], and the
    counter [ct] of the tree is its number of nodes. *)
Theorem local_ids cfg r q :
  generated cfg r q →
  Forall (λ t, row_id <$> tree t = Z.of_nat <$> seq 0 (length (tree t))
               ∧ ct t = num_nodes t)
         (trees q).
Proof.
  intros Hq. apply Forall_forall. intros t Ht.
  destruct (generated_trees _ _ _ _ Hq Ht) as (start & _ & Hct & Hsub).
  split; [|done]. apply subtree_ids, ids_from_seq in Hsub.
  rewrite Hsub. by apply list_fmap_ext.
Qed.

Lemma local_ids_witness :
  generated small_config tape_ones small_forest
  ∧ Forall (λ t, row_id <$> tree t = Z.of_nat <$> seq 0 (length (tree t))
                 ∧ ct t = num_nodes t)
           (trees small_forest).
Proof.
  assert (generated small_config tape_ones small_forest) as Hq by forest_run.
  split; [exact Hq|]. exact (local_ids small_config tape_ones small_forest Hq).
Defined.

(** X10 (Question.__init__, roots): a generated forest has one tree per
    start node, in the order of the start nodes; the first row of each
    tree is its root, on the start node, with ID 0, depth 0 and itself as
    parent, and all other rows of the tree are deeper. *)
Theorem roots_on_start_nodes cfg r q :
  generated cfg r q →
  Forall2 (λ (start : point) (t : Tree),
             ∃ kids, tree t = mkRow 0 start.1 0 start.2 0 :: kids
                     ∧ Forall (λ row, 0 < depth row) kids)
          (generate_layers cfg).1 (trees q).
Proof.
  intros (ls' & r' & Hq). apply Question_init_spec in Hq as [Hok _].
  eapply Forall2_impl; [exact Hok|]. intros start t (_ & _ & Hsub).
  pose proof (subtree_depth _ _ _ _ _ _ _ Hsub) as [_ Hd].
  apply subtree_head in Hsub as (kids & Hrows). rewrite Hrows in *.
  exists kids. split; [done|]. exact Hd.
Qed.

Lemma roots_on_start_nodes_witness :
  generated small_config tape_ones small_forest
  ∧ Forall2 (λ (start : point) (t : Tree),
               ∃ kids, tree t = mkRow 0 start.1 0 start.2 0 :: kids
                       ∧ Forall (λ row, 0 < depth row) kids)
            (generate_layers small_config).1 (trees small_forest).
Proof.
  assert (generated small_config tape_ones small_forest) as Hq by forest_run.
  split; [exact Hq|].
  exact (roots_on_start_nodes small_config tape_ones small_forest Hq).
Defined.



Lemma blocks_count d P i n rows lo hi :
  (∀ j t, P j t → lo ≤ Z.of_nat (length (at_depth d t)) ≤ hi) →
  blocks P i n rows →
  Z.of_nat n * lo ≤ Z.of_nat (length (at_depth d rows)) ≤ Z.of_nat n * hi.
Proof.
  intros HP. induction 1 as [|i n t ts Ht _ IH]; [simpl; lia|].
  rewrite at_depth_app, length_app. specialize (HP _ _ Ht). lia.
Qed.

Lemma subtree_count_at cfg k layer i parent node rows :
  0 ≤ MIN_CHILD cfg →
  subtree cfg k layer i parent node rows →
  ∀ e : nat, (e ≤ k)%nat →
    MIN_CHILD cfg ^ Z.of_nat e
    ≤ Z.of_nat (length (at_depth (layer + e) rows))
    ≤ MAX_CHILD cfg ^ Z.of_nat e.
Proof.
  intros Hmin. revert layer i parent node rows.
  induction k as [|k IH]; intros layer i parent node rows Hsub e He.
  - assert (e = 0)%nat as -> by lia.
    destruct Hsub as (kids & -> & ->). rewrite Nat.add_0_r.
    unfold at_depth. rewrite filter_cons, decide_True by done. simpl. lia.
  - pose proof (subtree_depth _ _ _ _ _ _ _ Hsub) as [_ Hd].
    destruct Hsub as (kids & -> & rand & Hrand & Hb). simpl in Hd.
    destruct e as [|e].
    + rewrite Nat.add_0_r. unfold at_depth.
      rewrite filter_cons, decide_True by done.
      fold (at_depth layer kids). rewrite at_depth_none; [simpl; lia|].
      eapply Forall_impl; [exact Hd|]. unfold depth. intros row Hrow.
      cbv beta in Hrow. lia.
    + unfold at_depth. rewrite filter_cons, decide_False by (simpl; lia).
      fold (at_depth (layer + S e) kids).
      eapply (blocks_count (layer + S e) _ _ _ _
                (MIN_CHILD cfg ^ Z.of_nat e) (MAX_CHILD cfg ^ Z.of_nat e)) in Hb.
      * rewrite Z2Nat.id in Hb by lia.
        rewrite !Nat2Z.inj_succ, !Z.pow_succ_r by lia.
        pose proof (Z.pow_nonneg (MIN_CHILD cfg) (Z.of_nat e) Hmin).
        pose proof (Z.pow_nonneg (MAX_CHILD cfg) (Z.of_nat e) ltac:(lia)).
        nia.
      * intros j t (p & Ht).
        replace (layer + S e)%nat with (S layer + e)%nat by lia.
        eapply IH; [exact Ht|lia].
Qed.

(** X12 (Tree.generate, levels): with a branching factor between
    [MIN_CHILD >= 0] and [MAX_CHILD], every tree of a generated forest has
    between [MIN_CHILD ^ d] and [MAX_CHILD ^ d] nodes at every depth [d] up
    to [NUM_LAYERS]. *)
Theorem nodes_per_depth cfg r q :
  0 ≤ MIN_CHILD cfg →
  generated cfg r q →
  ∀ d : nat, (d ≤ NUM_LAYERS cfg)%nat →
    Forall (λ t, MIN_CHILD cfg ^ Z.of_nat d
                 ≤ Z.of_nat (length (at_depth d (tree t)))
                 ≤ MAX_CHILD cfg ^ Z.of_nat d)
           (trees q).
Proof.
  intros Hmin Hq d Hd. apply Forall_forall. intros t Ht.
  destruct (generated_trees _ _ _ _ Hq Ht) as (start & _ & _ & Hsub).
  exact (subtree_count_at _ _ _ _ _ _ _ Hmin Hsub d Hd).
Qed.

Lemma nodes_per_depth_witness :
  0 ≤ MIN_CHILD small_config
  ∧ generated small_config tape_ones small_forest
  ∧ (2 ≤ NUM_LAYERS small_config)%nat
  ∧ Forall (λ t, 1 ≤ Z.of_nat (length (at_depth 2 (tree t))) ≤ 4)
           (trees small_forest).
Proof.
  assert (generated small_config tape_ones small_forest) as Hq by forest_run.
  split; [simpl; lia|]. split; [exact Hq|]. split; [simpl; lia|].
  apply (nodes_per_depth small_config tape_ones small_forest
           ltac:(simpl; lia) Hq 2%nat ltac:(simpl; lia)).
Defined.

(** ** Leaves and the marker *)

Lemma get_random_leaf_leaf t r row r' :
  get_random_leaf t r = Ok (row, r') →
  row ∈ tree t ∧ depth row = Z.of_nat (num_layers t).
Proof.
  unfold get_random_leaf. intros Hrow%choice_Ok.
  apply list_elem_of_filter in Hrow as [Hy Hin].
  split; [done|]. unfold depth. lia.
Qed.

(** X13 (Tree.get_random_leaf): the call returns a row of the tree whose
    depth is [num_layers], and it raises [IndexError] exactly when the tree
    has no such row; it draws once from the generator. *)
Theorem get_random_leaf_spec (t : Tree) (r : Rng) :
  match get_random_leaf t r with
  | Ok (row, r') =>
      row ∈ tree t ∧ depth row = Z.of_nat (num_layers t)
      ∧ r' = (rng_next r).2
  | IndexError =>
      Forall (λ row, depth row ≠ Z.of_nat (num_layers t)) (tree t)
  | _ => False
  end.
Proof.
  unfold get_random_leaf.
  destruct (filter _ (tree t)) as [|row0 rows] eqn:Hf.
  - simpl. apply Forall_forall. intros row Hin Hd.
    eapply (filter_nil_not_elem_of _ _ row Hf); [|done].
    unfold depth in Hd. simpl. lia.
  - destruct (choice_nonempty (row0 :: rows) r ltac:(done)) as (row & -> & Hrow).
    rewrite <- Hf in Hrow. apply list_elem_of_filter in Hrow as [Hy Hin].
    split; [done|]. split; [|done]. unfold depth. lia.
Qed.


Lemma Question_str_ok q r :
  trees q ≠ [] →
  Forall (λ t, ∃ row, row ∈ tree t ∧ row_y row = - Z.of_nat (num_layers t))
         (trees q) →
  ∃ s q' r', Question_str q r = Ok (s, q', r').
Proof.
  intros Hne Hleaf. unfold Question_str.
  destruct (choice_nonempty (translate_all 0 (trees q)) r) as (t' & -> & Ht').
  { intros Heq. apply (f_equal length) in Heq.
    rewrite length_translate_all in Heq. by destruct (trees q). }
  generalize ((rng_next r).2). intros r1. simpl.
  apply translate_all_elem in Ht' as (t & num & Ht & ->).
  rewrite Forall_forall in Hleaf. destruct (Hleaf _ Ht) as (row & Hrow & Hy).
  unfold get_random_leaf.
  destruct (choice_nonempty
              (filter (λ row, row_y row = - Z.of_nat (num_layers (translate num t)))
                      (tree (translate num t))) r1)
    as (leaf & -> & _).
  { intros Heq. eapply (filter_nil_not_elem_of _ _ (shift_row num row) Heq).
    - rewrite translate_tree. simpl. done.
    - rewrite translate_tree. simpl. by apply list_elem_of_fmap_2. }
  simpl. by eexists _, _, _.
Qed.





(** X15 (Question.__str__, marker): when a serialization returns, the
    first line of the text is the ID, after translation, of a row of one
    of the trees whose depth is the [num_layers] of that tree. *)
Theorem marker_is_leaf q r s q' r' :
  Question_str q r = Ok (s, q', r') →
  ∃ t leaf, t ∈ trees q' ∧ leaf ∈ tree t
            ∧ depth leaf = Z.of_nat (num_layers t)
            ∧ head (lines s) = Some (pretty (row_id leaf)).
Proof.
  intros Hstr. pose proof Hstr as Hstr0. unfold Question_str in Hstr.
  apply result_bind_Ok in Hstr as ([t r1] & Hch & Hstr).
  apply result_bind_Ok in Hstr as ([leaf r2] & Hleaf & [= Hs <- _]).
  apply choice_Ok in Hch.
  pose proof (get_random_leaf_leaf _ _ _ _ Hleaf) as [Hin Hd].
  exists t, leaf. split; [done|]. split; [done|]. split; [done|].
  rewrite <- Hs, foldl_app_string, !string_app_assoc.
  by rewrite lines_cons by apply plain_one_line, plain_pretty_Z.
Qed.

Lemma marker_is_leaf_witness :
  ∃ s q' r',
    Question_str single_tree tape_ones = Ok (s, q', r')
    ∧ ∃ t leaf, t ∈ trees q' ∧ leaf ∈ tree t
                ∧ depth leaf = Z.of_nat (num_layers t)
                ∧ head (lines s) = Some (pretty (row_id leaf)).
Proof.
  eexists _, _, _. split; [vm_compute; reflexivity|].
  eapply (marker_is_leaf single_tree tape_ones). vm_compute. reflexivity.
Defined.

(** ** Runs that raise, and runs without layers *)

Lemma Tree_init_root_only cfg start ls r :
  length ls = 0%nat ∨ (MIN_CHILD cfg ≤ MAX_CHILD cfg ∧ MAX_CHILD cfg ≤ 0) →
  ∃ r', Tree_init cfg start ls r = Ok (root_only (length ls) start, ls, r').
Proof.
  intros Hcase. unfold Tree_init. rewrite generate_S. cbv zeta. simpl.
  destruct (decide _) as [|Hlayers]; [by eexists|].
  destruct Hcase as [|[Hminmax Hmax]]; [lia|].
  unfold rand_children, randint. simpl. rewrite decide_False by lia. simpl.
  rewrite Z2Nat.nonpos; [by eexists|].
  pose proof (Z.mod_pos_bound (Z.of_nat (r 0%nat))
                (MAX_CHILD cfg - MIN_CHILD cfg + 1) ltac:(lia)). lia.
Qed.

Lemma init_loop_root_only cfg starts acc ls r :
  length ls = 0%nat ∨ (MIN_CHILD cfg ≤ MAX_CHILD cfg ∧ MAX_CHILD cfg ≤ 0) →
  ∃ r', init_loop cfg starts acc ls r
        = Ok (acc ++ (root_only (length ls) <$> starts), ls, r').
Proof.
  intros Hcase. revert acc r.
  induction starts as [|start starts IH]; intros acc r; simpl.
  - rewrite app_nil_r. by eexists.
  - destruct (Tree_init_root_only cfg start ls r Hcase) as (r1 & ->). simpl.
    destruct (IH (acc ++ [root_only (length ls) start]) r1) as (r2 & ->).
    rewrite <- (assoc_L (++)). by eexists.
Qed.

Lemma start_nodes_cons cfg :
  (1 ≤ NUM_TREES cfg)%nat →
  ∃ rest, (generate_layers cfg).1 = (PyInt 0, PyInt 0) :: rest.
Proof.
  intros Htrees. pose proof (start_nodes_lookup cfg 0 ltac:(lia)) as H0.
  destruct (generate_layers cfg).1 as [|p rest]; [done|].
  injection H0 as ->. by exists rest.
Qed.

Lemma Question_init_empty_range cfg r :
  MAX_CHILD cfg < MIN_CHILD cfg →
  (1 ≤ NUM_TREES cfg)%nat → (1 ≤ NUM_LAYERS cfg)%nat →
  Question_init cfg (generate_layers cfg).1 (generate_layers cfg).2 r
  = ValueError.
Proof.
  intros Hrange Htrees Hlayers.
  destruct (start_nodes_cons cfg Htrees) as (rest & Hstarts).
  pose proof (generate_layers_length cfg) as Hlen.
  destruct (generate_layers cfg) as [starts ls]. simpl in *. subst starts.
  unfold Question_init. simpl. unfold Tree_init. rewrite generate_S. cbv zeta.
  simpl. rewrite decide_False by lia.
  unfold rand_children, randint. simpl. by rewrite decide_True by lia.
Qed.

(** X16 (Tree.generate, empty range): with at least one tree and one
    layer, a configuration with [MAX_CHILD < MIN_CHILD] makes every run
    raise [ValueError], at the first call of [randint]. *)
Theorem main_empty_range cfg r :
  MAX_CHILD cfg < MIN_CHILD cfg →
  (1 ≤ NUM_TREES cfg)%nat → (1 ≤ NUM_LAYERS cfg)%nat →
  main cfg r = ValueError.
Proof.
  intros Hrange Htrees Hlayers. unfold main.
  pose proof (Question_init_empty_range cfg r Hrange Htrees Hlayers) as Hinit.
  destruct (generate_layers cfg) as [starts ls]. simpl in *. by rewrite Hinit.
Qed.

Lemma main_empty_range_witness :
  main {| NUM_TREES := 1; NUM_LAYERS := 1; MIN_CHILD := 2; MAX_CHILD := 1 |}
       tape_ones = ValueError.
Proof.
  apply (main_empty_range
           {| NUM_TREES := 1; NUM_LAYERS := 1; MIN_CHILD := 2; MAX_CHILD := 1 |});
    simpl; lia.
Defined.

(** X17 (Question.__str__, no tree): with [NUM_TREES = 0] every run raises
    [IndexError]: the forest is empty and there is no tree to choose the
    marker from. *)
Theorem main_no_trees cfg r :
  NUM_TREES cfg = 0%nat → main cfg r = IndexError.
Proof.
  intros Htrees. unfold main, generate_layers, start_nodes_of.
  rewrite Htrees. reflexivity.
Qed.

Lemma main_no_trees_witness :
  main {| NUM_TREES := 0; NUM_LAYERS := 3; MIN_CHILD := 1; MAX_CHILD := 2 |}
       tape_ones = IndexError.
Proof.
  apply (main_no_trees
           {| NUM_TREES := 0; NUM_LAYERS := 3; MIN_CHILD := 1; MAX_CHILD := 2 |}).
  reflexivity.
Defined.

Lemma get_random_leaf_none t r :
  Forall (λ row, row_y row ≠ - Z.of_nat (num_layers t)) (tree t) →
  get_random_leaf t r = IndexError.
Proof.
  intros Hall. unfold get_random_leaf.
  destruct (filter _ (tree t)) as [|row rows] eqn:Hf; [done|].
  assert (row ∈ filter (λ row, row_y row = - Z.of_nat (num_layers t)) (tree t))
    as [Hy Hin]%list_elem_of_filter by (rewrite Hf; by left).
  rewrite Forall_forall in Hall. by destruct (Hall _ Hin).
Qed.

(** X18 (Tree.get_random_leaf, no leaf): with at least one tree and one
    layer, a configuration whose branching factor is never positive
    ([MIN_CHILD <= MAX_CHILD <= 0]) makes every run raise [IndexError]:
    the trees are roots without children, and no row has the depth
    [NUM_LAYERS] that the marker is chosen from. *)
Theorem main_no_leaf cfg r :
  MIN_CHILD cfg ≤ MAX_CHILD cfg → MAX_CHILD cfg ≤ 0 →
  (1 ≤ NUM_TREES cfg)%nat → (1 ≤ NUM_LAYERS cfg)%nat →
  main cfg r = IndexError.
Proof.
  intros Hminmax Hmax Htrees Hlayers. unfold main.
  destruct (start_nodes_cons cfg Htrees) as (rest & Hstarts).
  pose proof (generate_layers_length cfg) as Hlen.
  destruct (generate_layers cfg) as [starts ls]. simpl in *.
  unfold Question_init.
  destruct (init_loop_root_only cfg starts [] ls r) as (r1 & ->); [by right|].
  simpl. unfold Question_str. simpl.
  destruct (choice _ r1) as [[t' r2]| | |] eqn:Hch; simpl; try done.
  - apply choice_Ok, translate_all_elem in Hch as (t & num & Ht & ->).
    apply list_elem_of_fmap in Ht as (start & -> & _).
    rewrite get_random_leaf_none; [done|].
    rewrite translate_tree. simpl. repeat constructor. simpl. lia.
  - unfold choice in Hch. destruct (translate_all _ _); [done|].
    by destruct (_ !! _).
  - unfold choice in Hch. destruct (translate_all _ _); [done|].
    by destruct (_ !! _).
Qed.

Lemma main_no_leaf_witness :
  main {| NUM_TREES := 2; NUM_LAYERS := 1; MIN_CHILD := 0; MAX_CHILD := 0 |}
       tape_ones = IndexError.
Proof.
  apply (main_no_leaf
           {| NUM_TREES := 2; NUM_LAYERS := 1; MIN_CHILD := 0; MAX_CHILD := 0 |});
    simpl; lia.
Defined.

(** ** Translation, repeated *)

Lemma shift_row_shift_row a b row :
  shift_row b (shift_row a row) = shift_row (a + b) row.
Proof. destruct row. unfold shift_row. simpl. f_equal; lia. Qed.

Lemma translate_translate a b t :
  translate b (translate a t) = translate (a + b) t.
Proof.
  rewrite !translate_tree. simpl. f_equal.
  rewrite <- list_fmap_compose. apply list_fmap_ext.
  intros i row _. apply shift_row_shift_row.
Qed.

(** X19 (Tree.translate, composition): translating by [a] and then by [b]
    is translating by [a + b]; so a translation is undone by the
    translation by the opposite number. *)
Theorem translate_compose (a b : Z) (t : Tree) :
  translate b (translate a t) = translate (a + b) t
  ∧ translate (- a) (translate a t) = t.
Proof.
  split; [apply translate_translate|].
  rewrite translate_translate, Z.add_opp_diag_r. apply translate_0.
Qed.

Lemma take_translate_all c k ts :
  take k (translate_all c ts) = translate_all c (take k ts).
Proof.
  revert c k. induction ts as [|t ts IH]; intros c [|k]; try done.
  simpl. by rewrite IH.
Qed.

(** X20 (Question.__str__, twice): two serializations in a row add to the
    ID and to the parent field of every row of tree [k] twice the number
    of rows of the trees before it, and leave the x, y and z fields as
    they are. *)
Theorem serialization_twice q r s1 q1 r1 s2 q2 r2 :
  Question_str q r = Ok (s1, q1, r1) →
  Question_str q1 r1 = Ok (s2, q2, r2) →
  ∀ (k : nat) (t : Tree), trees q !! k = Some t →
    ∃ t2, trees q2 !! k = Some t2
      ∧ Forall2 (λ row row2,
           row_id row2
           = row_id row + 2 * Z.of_nat (length (all_rows (take k (trees q))))
           ∧ row_parent row2
             = row_parent row + 2 * Z.of_nat (length (all_rows (take k (trees q))))
           ∧ row_x row2 = row_x row
           ∧ row_y row2 = row_y row
           ∧ row_z row2 = row_z row)
         (tree t) (tree t2).
Proof.
  intros Hstr1 Hstr2 k t Hk.
  pose proof (Question_str_trees _ _ _ _ _ Hstr1) as Hts1.
  pose proof (Question_str_trees _ _ _ _ _ Hstr2) as Hts2.
  pose proof (translate_all_lookup 0 _ _ _ Hk) as Hk1. rewrite <- Hts1 in Hk1.
  pose proof (translate_all_lookup 0 _ _ _ Hk1) as Hk2. rewrite <- Hts2 in Hk2.
  rewrite Hts1, take_translate_all, translate_all_length in Hk2.
  rewrite translate_translate in Hk2.
  eexists. split; [exact Hk2|]. rewrite translate_tree. simpl.
  apply Forall2_fmap_r, Forall_Forall2_diag, Forall_forall.
  intros row _. simpl. repeat split; lia.
Qed.

Lemma serialization_twice_witness :
  ∃ s1 q1 r1 s2 q2 r2,
    Question_str small_forest tape_ones = Ok (s1, q1, r1)
    ∧ Question_str q1 r1 = Ok (s2, q2, r2)
    ∧ ∀ (k : nat) (t : Tree), trees small_forest !! k = Some t →
        ∃ t2, trees q2 !! k = Some t2
          ∧ Forall2 (λ row row2,
               row_id row2
               = row_id row
                 + 2 * Z.of_nat (length (all_rows (take k (trees small_forest))))
               ∧ row_parent row2
                 = row_parent row
                   + 2 * Z.of_nat (length (all_rows (take k (trees small_forest))))
               ∧ row_x row2 = row_x row
               ∧ row_y row2 = row_y row
               ∧ row_z row2 = row_z row)
             (tree t) (tree t2).
Proof.
  eexists _, _, _, _, _, _. split; [vm_compute; reflexivity|].
  split; [vm_compute; reflexivity|].
  eapply (serialization_twice small_forest tape_ones); vm_compute; reflexivity.
Defined.

(** ** Record lines *)

Lemma fields_plain p : plain p = true → fields p = [p].
Proof.
  induction p as [|c p IH]; [done|]. simpl. unfold plain_char.
  intros [[_ Hc]%andb_prop Hp]%andb_prop. apply negb_true_iff in Hc.
  by rewrite Hc, IH.
Qed.

Lemma fields_app p rest :
  plain p = true → fields (p +:+ "," +:+ rest) = p :: fields rest.
Proof.
  induction p as [|c p IH]; [done|]. rewrite string_app_cons. simpl.
  unfold plain_char.
  intros [[_ Hc]%andb_prop Hp]%andb_prop. apply negb_true_iff in Hc.
  by rewrite Hc, IH.
Qed.

Lemma fields_row_line row :
  fields (row_line row)
  = [pretty (row_id row); format_num (row_x row); pretty (row_y row - 1);
     format_num (row_z row); pretty (row_parent row)].
Proof.
  unfold row_line.
  rewrite !fields_app by (apply plain_pretty_Z || apply plain_format_num).
  by rewrite fields_plain by apply plain_pretty_Z.
Qed.

(** X21 (Question.__str__ and Tree.__str__, records): when a serialization
    returns, the text has two lines and then one line per row of the
    forest, in the order of the rows; every such line has exactly five
    fields between commas: the ID, x, y minus one, z and the parent of its
    row, as translated. *)
Theorem record_fields q r s q' r' :
  Question_str q r = Ok (s, q', r') →
  length (lines s) = (2 + length (all_rows (trees q)))%nat
  ∧ fields <$> drop 2 (lines s)
    = (λ row, [pretty (row_id row); format_num (row_x row);
               pretty (row_y row - 1); format_num (row_z row);
               pretty (row_parent row)])
        <$> all_rows (trees q').
Proof.
  intros Hstr. destruct (Question_str_lines _ _ _ _ _ Hstr) as (marker & ->).
  split.
  - cbn [length]. rewrite length_fmap.
    by rewrite (Question_str_trees _ _ _ _ _ Hstr), translate_all_length.
  - cbn [skipn]. rewrite drop_0, <- list_fmap_compose.
    apply list_fmap_ext. intros i row _. apply fields_row_line.
Qed.

Lemma record_fields_witness :
  ∃ s q' r',
    Question_str single_tree tape_ones = Ok (s, q', r')
    ∧ length (lines s) = (2 + length (all_rows (trees single_tree)))%nat
    ∧ fields <$> drop 2 (lines s)
      = (λ row, [pretty (row_id row); format_num (row_x row);
                 pretty (row_y row - 1); format_num (row_z row);
                 pretty (row_parent row)])
          <$> all_rows (trees q').
Proof.
  eexists _, _, _. split; [vm_compute; reflexivity|].
  eapply (record_fields single_tree tape_ones). vm_compute. reflexivity.
Defined.

Example record_fields_single_tree :
  (λ res, match res with
          | Ok (s, _, _) => Some (fields <$> drop 2 (lines s))
          | _ => None
          end) (Question_str single_tree tape_ones)
  = Some [["0"; "0"; "-1"; "0"; "0"]; ["1"; "-1"; "-2"; "2"; "0"]].
Proof. vm_compute. reflexivity. Qed.

(** ** ID ranges, and forests of roots *)

(** X22 (Question.__str__, ID ranges): after the first serialization of a
    generated forest, the IDs of the rows of tree [k] are the consecutive
    numbers that start at the number of rows of the trees before it: the
    ID ranges of the trees follow one another without gap or overlap. *)
Theorem tree_id_ranges cfg r q r1 s q' r2 :
  generated cfg r q →
  Question_str q r1 = Ok (s, q', r2) →
  ∀ (k : nat) (t' : Tree), trees q' !! k = Some t' →
    row_id <$> tree t'
    = (λ j : nat, Z.of_nat (length (all_rows (take k (trees q')))) + Z.of_nat j)
        <$> seq 0 (length (tree t')).
Proof.
  intros Hq Hstr k t' Hk.
  rewrite (Question_str_trees _ _ _ _ _ Hstr) in *.
  destruct (lookup_lt_is_Some_2 (trees q) k) as [t Ht].
  { apply lookup_lt_Some in Hk. by rewrite length_translate_all in Hk. }
  rewrite (translate_all_lookup _ _ _ _ Ht) in Hk. injection Hk as <-.
  rewrite take_translate_all, translate_all_length, translate_tree. simpl.
  assert (t ∈ trees q) as Hin by (by eapply list_elem_of_lookup_2).
  destruct (generated_trees _ _ _ _ Hq Hin) as (start & Hok).
  apply tree_ok_ids, ids_from_seq in Hok.
  rewrite length_fmap, <- list_fmap_compose.
  rewrite (list_fmap_ext _
             ((λ i, i + Z.of_nat (length (all_rows (take k (trees q))))) ∘ row_id)
             (tree t)) by done.
  rewrite list_fmap_compose, Hok, <- list_fmap_compose.
  apply list_fmap_ext. intros i j _. simpl. lia.
Qed.

Lemma tree_id_ranges_witness :
  ∃ s q' r2,
    generated small_config tape_ones small_forest
    ∧ Question_str small_forest tape_ones = Ok (s, q', r2)
    ∧ ∀ (k : nat) (t' : Tree), trees q' !! k = Some t' →
        row_id <$> tree t'
        = (λ j : nat, Z.of_nat (length (all_rows (take k (trees q')))) + Z.of_nat j)
            <$> seq 0 (length (tree t')).
Proof.
  assert (generated small_config tape_ones small_forest) as Hq by forest_run.
  eexists _, _, _. split; [exact Hq|]. split; [vm_compute; reflexivity|].
  eapply (tree_id_ranges small_config tape_ones small_forest tape_ones);
    [exact Hq|vm_compute; reflexivity].
Defined.

Lemma all_rows_roots L (g : Z → point) (a n : nat) :
  all_rows (translate_all (Z.of_nat a)
              (root_only L <$> (g <$> (Z.of_nat <$> seq a n))))
  = (λ i : Z, mkRow i (g i).1 0 (g i).2 i) <$> (Z.of_nat <$> seq a n).
Proof.
  revert a. induction n as [|n IH]; intros a; [done|].
  cbn [seq fmap list_fmap].
  change (translate_all (Z.of_nat a) (root_only L (g (Z.of_nat a)) :: ?ts))
    with (translate (Z.of_nat a) (root_only L (g (Z.of_nat a)))
          :: translate_all (Z.of_nat a
               + num_nodes (translate (Z.of_nat a) (root_only L (g (Z.of_nat a)))))
               ts).
  rewrite all_rows_cons, translate_tree.
  replace (Z.of_nat a + num_nodes _) with (Z.of_nat (S a))
    by (unfold num_nodes; simpl; lia).
  rewrite IH. simpl. do 2 f_equal; lia.
Qed.

(** X23 (main, no layers): with [NUM_LAYERS = 0] and at least one tree the
    run returns whatever the bounds of the branching factor are: nothing
    is drawn for the trees, and the forest holds one root per start node,
    tree [i] being the single row with ID [i], depth 0 and itself as
    parent on the point [(i div 3, i mod 3)]. *)
Theorem main_no_layers cfg r :
  NUM_LAYERS cfg = 0%nat → (1 ≤ NUM_TREES cfg)%nat →
  ∃ s q' r',
    main cfg r = Ok (s, q', r')
    ∧ all_rows (trees q')
      = (λ i : Z, mkRow i (PyInt (i `div` 3)) 0 (PyInt (i `mod` 3)) i)
          <$> range (Z.of_nat (NUM_TREES cfg)).
Proof.
  intros Hlayers Htrees.
  pose proof (generate_layers_length cfg) as Hlen. rewrite Hlayers in Hlen.
  destruct (init_loop_root_only cfg (generate_layers cfg).1 []
              (generate_layers cfg).2 r) as (r1 & Hinit); [by left|].
  rewrite Hlen in Hinit. cbn [app] in Hinit.
  set (q := mkQuestion (root_only 0 <$> (generate_layers cfg).1)).
  destruct (Question_str_ok q r1) as (s & q' & r2 & Hstr).
  - destruct (start_nodes_cons cfg Htrees) as (rest & Hstarts).
    unfold q. cbn [trees]. by rewrite Hstarts.
  - unfold q. simpl. apply Forall_fmap, Forall_forall. intros start _. simpl.
    eexists. split; [by left|done].
  - exists s, q', r2. split.
    + apply main_Ok. exists q, (generate_layers cfg).2, r1. split; [|done].
      unfold Question_init. by rewrite Hinit.
    + rewrite (Question_str_trees _ _ _ _ _ Hstr). unfold q. simpl.
      unfold start_nodes_of, range.
      apply (all_rows_roots 0 (λ i, (PyInt (i `div` 3), PyInt (i `mod` 3))) 0).
Qed.

Lemma main_no_layers_witness :
  ∃ s q' r',
    main {| NUM_TREES := 4; NUM_LAYERS := 0; MIN_CHILD := 5; MAX_CHILD := 1 |}
         tape_ones = Ok (s, q', r')
    ∧ all_rows (trees q')
      = (λ i : Z, mkRow i (PyInt (i `div` 3)) 0 (PyInt (i `mod` 3)) i)
          <$> range 4.
Proof.
  apply (main_no_layers
           {| NUM_TREES := 4; NUM_LAYERS := 0; MIN_CHILD := 5; MAX_CHILD := 1 |});
    simpl; [reflexivity|lia].
Defined.

